(** * Row merging of normalised CSV exports: a shallow embedding of [rowmerge.py]

    The development follows the source file top to bottom:
    - Python strings, [str.strip], [str.rfind] and slicing;
    - the regular expression used by [discover_mappings];
    - [discover_mappings];
    - the fragment of pandas used by [do_joins] and [merge_rows];
    - [do_joins] and [merge_rows];
    - the properties of the specification. *)

From Stdlib Require Import ZArith NArith Ascii String Lia.
From stdpp Require Import base option list sets gmap.

Local Open Scope Z_scope.

#[local] Set Warnings "-clear-no-such-hyp".

(** ** Python strings *)

(** A Python [str] is a sequence of Unicode code points. *)
Definition char := N.
Definition str := list char.

(** ASCII literals of the source, as code points. *)
Definition py (s : string) : str :=
  (λ a, N_of_ascii a) <$> list_ascii_of_string s.

Definition in_range (lo hi c : N) : bool := ((lo <=? c) && (c <=? hi))%N.

(** [\w] below U+0080: digits, letters and the underscore. *)
Definition ascii_word (c : char) : bool :=
  in_range 48 57 c || in_range 65 90 c || in_range 97 122 c || (c =? 95)%N.

(** [str.isspace] below U+0080: TAB, LF, VT, FF, CR, FS, GS, RS, US, space. *)
Definition ascii_space (c : char) : bool :=
  in_range 9 13 c || in_range 28 32 c.

Definition DOT : char := 46%N.
Definition AT : char := 64%N.
Definition LF : char := 10%N.

(** Python's slice-bound normalisation: a negative bound counts from the
    end, and the result is clipped to [0, len]. *)
Definition slice_bound (len i : Z) : Z :=
  if i <? 0 then Z.max 0 (i + len) else Z.min i len.

(** [s[k:]] *)
Definition slice_from (s : str) (k : Z) : str :=
  drop (Z.to_nat (slice_bound (Z.of_nat (length s)) k)) s.

(** [s[:k]] *)
Definition slice_to (s : str) (k : Z) : str :=
  take (Z.to_nat (slice_bound (Z.of_nat (length s)) k)) s.

(** One left-to-right pass that remembers the last position of [c] inside
    the window [lo, hi). *)
Fixpoint rfind_scan (c : char) (s : str) (i lo hi acc : Z) : Z :=
  match s with
  | [] => acc
  | x :: s' =>
      rfind_scan c s' (i + 1) lo hi
        (if (x =? c)%N && (lo <=? i) && (i <? hi) then i else acc)
  end.

(** [s.rfind(c, start, end)]: the highest index of [c] in [s[start:end]],
    or [-1]. *)
Definition rfind (c : char) (s : str) (start stop : Z) : Z :=
  let n := Z.of_nat (length s) in
  rfind_scan c s 0 (slice_bound n start) (slice_bound n stop) (-1).

(** [s.rfind(c)] *)
Definition rfind_all (c : char) (s : str) : Z :=
  rfind c s 0 (Z.of_nat (length s)).

(** ** Regular expressions *)

Inductive regex : Type :=
  | Void
  | Eps
  | Cls (p : char → bool)
  | Cat (r1 r2 : regex)
  | Alt (r1 r2 : regex)
  | Star (r : regex).

Definition Chr (c : char) : regex := Cls (λ x, (x =? c)%N).
Definition Plus (r : regex) : regex := Cat r (Star r).
Definition Opt (r : regex) : regex := Alt r Eps.

(** The words of a regular expression. *)
Inductive lang : regex → str → Prop :=
  | lang_eps : lang Eps []
  | lang_cls p c : p c = true → lang (Cls p) [c]
  | lang_cat r1 r2 s1 s2 : lang r1 s1 → lang r2 s2 → lang (Cat r1 r2) (s1 ++ s2)
  | lang_alt_l r1 r2 s : lang r1 s → lang (Alt r1 r2) s
  | lang_alt_r r1 r2 s : lang r2 s → lang (Alt r1 r2) s
  | lang_star_nil r : lang (Star r) []
  | lang_star_cons r s1 s2 :
      lang r s1 → lang (Star r) s2 → lang (Star r) (s1 ++ s2).

Fixpoint nullable (r : regex) : bool :=
  match r with
  | Void => false
  | Eps => true
  | Cls _ => false
  | Cat r1 r2 => nullable r1 && nullable r2
  | Alt r1 r2 => nullable r1 || nullable r2
  | Star _ => true
  end.

Fixpoint deriv (c : char) (r : regex) : regex :=
  match r with
  | Void => Void
  | Eps => Void
  | Cls p => if p c then Eps else Void
  | Cat r1 r2 =>
      if nullable r1 then Alt (Cat (deriv c r1) r2) (deriv c r2)
      else Cat (deriv c r1) r2
  | Alt r1 r2 => Alt (deriv c r1) (deriv c r2)
  | Star r => Cat (deriv c r) (Star r)
  end.

(** Does the whole of [s] belong to [r]? *)
Fixpoint accepts (r : regex) (s : str) : bool :=
  match s with
  | [] => nullable r
  | c :: s' => accepts (deriv c r) s'
  end.

Section Unicode.

(** The Unicode character database is not part of the repository: the
    classification of the code points from U+0080 on is a parameter. *)
Variable uni_alnum : char → bool.
Variable uni_space : char → bool.

(** [\w] on [str] patterns: alphanumeric or underscore. *)
Definition is_word (c : char) : bool :=
  if (c <? 128)%N then ascii_word c else uni_alnum c.

(** [str.isspace] on one character. *)
Definition is_space (c : char) : bool :=
  if (c <? 128)%N then ascii_space c else uni_space c.

Fixpoint lstrip (s : str) : str :=
  match s with
  | [] => []
  | c :: s' => if is_space c then lstrip s' else s
  end.

(** [s.strip()] *)
Definition strip (s : str) : str := reverse (lstrip (reverse (lstrip s))).

(** [\w+\.@?id], the pattern of [discover_mappings] without its final [$]. *)
Definition index_re : regex :=
  Cat (Plus (Cls is_word))
    (Cat (Chr DOT) (Cat (Opt (Chr AT)) (Cat (Chr 105%N) (Chr 100%N)))).

(** [$] outside MULTILINE mode: the end of the string, or just before a
    line feed that ends the string. *)
Definition dollar : regex := Opt (Chr LF).

(** [re.match(r"\w+\.@?id$", s) is not None].  [re.match] anchors at the
    start and [$] at the end, so the whole of [s] is consumed. *)
Definition re_match_index (s : str) : bool := accepts (Cat index_re dollar) s.

(** ** [discover_mappings] *)

(** The test of the first loop. *)
Definition is_index_col (col : str) : bool := re_match_index (strip col).

(** First loop: the set [index_cols]. *)
Definition collect_index_cols (columns : list str) : gset str :=
  foldl (λ index_cols col,
           if is_index_col col then index_cols ∪ {[col]} else index_cols)
        ∅ columns.

(** [col.rfind(".", 0, col.rfind("."))] *)
Definition second_last_dot (col : str) : Z :=
  rfind DOT col 0 (rfind_all DOT col).

(** [col[offset+1:]] *)
Definition suffix_of (col : str) : str :=
  slice_from col (second_last_dot col + 1).

(** Body of the second loop, on the state [(index_cols, mappings)]. *)
Definition scan_col (st : gset str * list (str * str)) (col : str)
  : gset str * list (str * str) :=
  let '(index_cols, mappings) := st in
  let offset := second_last_dot col in
  let suffix := suffix_of col in
  if bool_decide (0 < offset) && bool_decide (suffix ∈ index_cols)
  then (index_cols ∖ {[suffix]}, mappings ++ [(col, suffix)])
  else (index_cols, mappings).

Definition discover_mappings (columns : list str) : list (str * str) :=
  snd (foldl scan_col (collect_index_cols columns, []) columns).

End Unicode.

(** The mappings emitted by the second loop from a given set of unclaimed
    index columns. *)
Definition emitted (index_cols : gset str) (columns : list str)
  : list (str * str) :=
  snd (foldl scan_col (index_cols, []) columns).

(** ** The fragment of pandas used by the program *)

(** Exceptions raised by the pandas calls of the program. *)
Inductive exn : Type :=
  | KeyError (name : str)
  | ValueError (name : str)
  | MergeValueError (left_on right_on : str).

Inductive result (A : Type) : Type :=
  | Ok (a : A)
  | Raise (e : exn).
Arguments Ok {A} a.
Arguments Raise {A} e.

Global Instance result_bind : MBind result := λ A B k r,
  match r with
  | Ok a => k a
  | Raise e => Raise e
  end.

(** What the module-level [logger] receives (its level is INFO). *)
Inductive event : Type :=
  | WarnOverlap (id_col : str) (overlap : gset str)
  | InfoJoin (id_col ref_col : str)
  | WarnNoJoins.

(** A row of a merge: the position of the left row and of the right row
    it is built from; [None] stands for pandas' indexer [-1]. *)
Abbreviation pairing := (option nat * option nat)%type.

Section Pandas.

(** Cell values are opaque to the program: it only tests them for
    missingness and, inside [pd.merge], for equality. *)
Context {value : Type} `{EqDecision value}.

(** A cell; [None] is the missing marker (NaN). *)
Definition cell : Type := option value.

(** A frame is stored by columns, as pandas does: the named columns in
    left-to-right order together with the row labels. *)
Record DataFrame : Type := mkFrame {
  series : list (str * list cell);
  index : list Z
}.

(** A frame of the program has unique column names and as many cells in
    each column as it has row labels. *)
Definition well_formed (df : DataFrame) : Prop :=
  NoDup (fst <$> series df) ∧
  Forall (λ c, length (snd c) = length (index df)) (series df).

(** [df.columns] *)
Definition columns (df : DataFrame) : list str := fst <$> series df.

(** [len(df)] *)
Definition nrows (df : DataFrame) : nat := length (index df).

(** The cell at position [i] of a column; out of range reads as missing. *)
Definition cell_at (cells : list cell) (i : nat) : cell :=
  default None (cells !! i).

(** The cells of row [i], in column order. *)
Definition row_at (df : DataFrame) (i : nat) : list cell :=
  (λ c, cell_at (snd c) i) <$> series df.

(** The rows of the frame, top to bottom. *)
Definition rows (df : DataFrame) : list (list cell) :=
  row_at df <$> seq 0 (nrows df).

(** [df.loc[:, name]] for a unique column name. *)
Definition loc (df : DataFrame) (name : str) : result (list cell) :=
  match list_find (λ c, fst c = name) (series df) with
  | Some (_, c) => Ok (snd c)
  | None => Raise (KeyError name)
  end.

(** [series.notna()] *)
Definition notna (cells : list cell) : list bool :=
  (λ c, bool_decide (is_Some c)) <$> cells.

(** Keeps the positions of [l] at which [mask] is true. *)
Fixpoint compress {A : Type} (mask : list bool) (l : list A) : list A :=
  match mask, l with
  | b :: mask', x :: l' =>
      if b then x :: compress mask' l' else compress mask' l'
  | _, _ => []
  end.

(** [df[mask]] for a boolean mask aligned with the rows. *)
Definition select_rows (df : DataFrame) (mask : list bool) : DataFrame :=
  {| series := (λ c, (fst c, compress mask (snd c))) <$> series df;
     index := compress mask (index df) |}.

(** [df.drop(index=labels)]: rows are dropped by label. *)
Definition df_drop (df : DataFrame) (labels : list Z) : DataFrame :=
  select_rows df ((λ l, bool_decide (l ∉ labels)) <$> index df).

(** The mask of the rows that hold at least one value. *)
Definition row_has_value (df : DataFrame) : list bool :=
  (λ i, existsb (λ c, bool_decide (is_Some (cell_at (snd c) i))) (series df))
    <$> seq 0 (nrows df).

(** [df.dropna(how='all')] *)
Definition dropna_rows (df : DataFrame) : DataFrame :=
  select_rows df (row_has_value df).

(** Is every cell of the column missing? *)
Definition all_missing (cells : list cell) : bool :=
  forallb (λ c, bool_decide (c = None)) cells.

(** [df.dropna(axis='columns', how='all')] *)
Definition dropna_columns (df : DataFrame) : DataFrame :=
  {| series := filter (λ c, all_missing (snd c) = false) (series df);
     index := index df |}.

(** [df.insert(0, name, NaN)] *)
Definition df_insert (df : DataFrame) (name : str) : result DataFrame :=
  if bool_decide (name ∈ columns df) then Raise (ValueError name)
  else Ok {| series := (name, replicate (nrows df) None) :: series df;
             index := index df |}.

(** The columns of [df] called [name]. *)
Definition named (df : DataFrame) (name : str) : list (str * list cell) :=
  filter (λ c, fst c = name) (series df).

(** [df[names]] for a list of column names. *)
Fixpoint getitem_series (df : DataFrame) (names : list str)
  : result (list (str * list cell)) :=
  match names with
  | [] => Ok []
  | name :: rest =>
      match named df name with
      | [] => Raise (KeyError name)
      | cs => tl ← getitem_series df rest ; Ok (cs ++ tl)
      end
  end.

Definition getitem (df : DataFrame) (names : list str) : result DataFrame :=
  cs ← getitem_series df names ;
  Ok {| series := cs; index := index df |}.

(** *** [pd.merge(left, right, left_on=…, right_on=…, how='outer')] *)

(** Positions of the right keys equal to [k].  As in pandas, a missing key
    equals a missing key. *)
Definition matches_of (k : cell) (rk : list cell) : list nat :=
  filter (λ j, rk !! j = Some k) (seq 0 (length rk)).

(** The rows contributed by left row [i] with key [k]. *)
Definition left_row_pairs (rk : list cell) (i : nat) (k : cell)
  : list pairing :=
  match matches_of k rk with
  | [] => [(Some i, None)]
  | js => (λ j, (Some i, Some j)) <$> js
  end.

(** The right rows whose key occurs nowhere on the left. *)
Definition right_only_pairs (lk rk : list cell) : list pairing :=
  omap id (imap (λ j k, if decide (k ∈ lk) then None
                        else Some (None, Some j)) rk).

Definition outer_pairs (lk rk : list cell) : list pairing :=
  mjoin (imap (left_row_pairs rk) lk) ++ right_only_pairs lk rk.

(** pandas orders the rows of an outer merge by key.  The order on cell
    values is not part of the repository: it is a parameter, applied to
    the pairs of row positions. *)
Variable key_order : list cell → list cell → list pairing → list pairing.

(** After it has found the two key columns, [pd.merge] raises
    [ValueError] when their dtypes cannot be merged (strings against
    numbers, for instance).  Dtypes are not part of the repository: the
    check is a parameter of the two key columns. *)
Variable keys_compatible : list cell → list cell → bool.

(** [cells.take(indexer)], [-1] reading as missing. *)
Definition gather (cells : list cell) (ix : list (option nat)) : list cell :=
  (λ oi, match oi with Some i => cell_at cells i | None => None end) <$> ix.

(** The cells that one side contributes to a row of the merge. *)
Definition row_or_missing (df : DataFrame) (oi : option nat) : list cell :=
  match oi with
  | Some i => row_at df i
  | None => (λ _, None) <$> series df
  end.

(** A row of the merge: the left cells followed by the right cells. *)
Definition glue (left right : DataFrame) (p : pairing) : list cell :=
  row_or_missing left (fst p) ++ row_or_missing right (snd p).

(** [pd.merge] first looks up the two key columns ([KeyError] when one
    is absent), then checks their dtypes ([ValueError]), then builds the
    rows.  The program calls it only on frames that share no column
    name, so no suffix is ever appended to a name. *)
Definition pd_merge (left right : DataFrame) (left_on right_on : str)
  : result DataFrame :=
  rk ← loc right right_on ;
  lk ← loc left left_on ;
  if keys_compatible lk rk then
    let pairs := key_order lk rk (outer_pairs lk rk) in
    Ok {| series :=
            ((λ c, (fst c, gather (snd c) (fst <$> pairs))) <$> series left) ++
            ((λ c, (fst c, gather (snd c) (snd <$> pairs))) <$> series right);
          index := Z.of_nat <$> seq 0 (length pairs) |}
  else Raise (MergeValueError left_on right_on).

(** ** [do_joins] *)

(** The rows of [df_out] that hold a value in the id column [ids]:
    [df_out[mask].copy()]. *)
Definition joinable (df_out : DataFrame) (ids : list cell) : DataFrame :=
  select_rows df_out (notna ids).

(** The other rows: [df_out.drop(index=df_to_join.index)]. *)
Definition remainder (df_out : DataFrame) (ids : list cell) : DataFrame :=
  df_drop df_out (index (joinable df_out ids)).

(** The column names left on both sides after each side has lost its
    all-missing columns. *)
Definition overlap_of (df_to_join df_tmp : DataFrame) : gset str :=
  list_to_set (columns df_to_join) ∩ list_to_set (columns df_tmp).

(** One iteration of the loop of [do_joins]: what is logged, and the new
    [df_out] or the exception that ends the program. *)
Definition join_step (df_out : DataFrame) (ref_col id_col : str)
  : list event * result DataFrame :=
  match loc df_out id_col with
  | Raise e => ([], Raise e)
  | Ok ids =>
      let df_to_join := joinable df_out ids in
      if bool_decide (nrows df_to_join = 0%nat) then ([], Ok df_out)
      else
        let df_tmp := remainder df_out ids in
        let df_to_join := dropna_columns df_to_join in
        let df_tmp := dropna_columns df_tmp in
        let overlap := overlap_of df_to_join df_tmp in
        if bool_decide (0 < size overlap)%nat
        then ([WarnOverlap id_col overlap], Ok df_out)
        else ([InfoJoin id_col ref_col],
              pd_merge df_tmp df_to_join ref_col id_col)
  end.

Fixpoint do_joins (df_out : DataFrame) (mappings : list (str * str))
  : list event * result DataFrame :=
  match mappings with
  | [] => ([], Ok df_out)
  | (ref_col, id_col) :: rest =>
      match join_step df_out ref_col id_col with
      | (log, Ok df_out') =>
          let '(log', r) := do_joins df_out' rest in (log ++ log', r)
      | (log, Raise e) => (log, Raise e)
      end
  end.

(** ** [merge_rows] *)

Variable uni_alnum : char → bool.
Variable uni_space : char → bool.

(** [for col in set(df_in.columns).difference(df_out.columns):
       df_out.insert(0, col, float("NaN"))].
    The iteration order of a Python set is unspecified; the order of
    [elements] stands for it. *)
Definition restore_columns (df_in df_out : DataFrame) : result DataFrame :=
  foldl (λ r col, df ← r ; df_insert df col) (Ok df_out)
    (elements (list_to_set (columns df_in) ∖ list_to_set (columns df_out)
               : gset str)).

Definition merge_rows (df_in : DataFrame) : list event * result DataFrame :=
  let df_out := dropna_rows df_in in
  if bool_decide (nrows df_out = 0%nat) then ([], Ok df_out)
  else
    let col_mappings := discover_mappings uni_alnum uni_space (columns df_out) in
    if bool_decide (length col_mappings = 0%nat)
    then ([WarnNoJoins], Ok df_out)
    else
      match do_joins df_out col_mappings with
      | (log, Raise e) => (log, Raise e)
      | (log, Ok df_out) =>
          (log, df_out ← restore_columns df_in df_out ;
                getitem df_out (columns df_in))
      end.

End Pandas.

Section FrameVocabulary.

Context {value : Type} `{EqDecision value}.

(** The frame without its first row. *)
Definition tail_frame (df : @DataFrame value) : @DataFrame value :=
  {| series := (λ c, (fst c, tail (snd c))) <$> series df;
     index := tail (index df) |}.

(** A row in which every cell is missing. *)
Definition empty_row (r : list (@cell value)) : Prop :=
  Forall (λ c, c = None) r.

End FrameVocabulary.

(** ** The specification's vocabulary *)

Section Names.

Variable uni_alnum : char → bool.
Variable uni_space : char → bool.

(** "One or more word characters, a literal dot, then [id] or [@id], end
    of string": the shape [<label>.id] or [<label>.@id]. *)
Definition index_name (s : str) : Prop :=
  ∃ label marker : str,
    s = label ++ DOT :: marker ∧
    label ≠ [] ∧
    Forall (λ c, is_word uni_alnum c = true) label ∧
    (marker = py "id" ∨ marker = py "@id").

(** [col] refers to the index column [idx]: the text after its
    second-to-last dot is [idx], and that dot is not its first character. *)
Definition refers_to (col idx : str) : Prop :=
  0 < second_last_dot col ∧ suffix_of col = idx.

Global Instance refers_to_dec col idx : Decision (refers_to col idx).
Proof. unfold refers_to. apply _. Defined.

(** The column at position [i] claims an index column: it refers to an
    index column of the input that no column before it refers to. *)
Definition claims (columns : list str) (i : nat) (col : str) : Prop :=
  0 < second_last_dot col ∧
  suffix_of col ∈ collect_index_cols uni_alnum uni_space columns ∧
  Forall (λ c, ¬ refers_to c (suffix_of col)) (take i columns).

Global Instance claims_dec columns i col : Decision (claims columns i col).
Proof. unfold claims. apply _. Defined.

End Names.

(** The classification tables restricted to ASCII. *)
Definition ascii_only : char → bool := λ _, false.

(** ** Sample tables

    Cells are natural numbers; a dash in the CSV file is [None]. *)

(** An outer merge that leaves the pairs in the order they were built. *)
Definition input_order {value : Type}
  : list (@cell value) → list (@cell value) → list pairing → list pairing :=
  λ _ _ pairs, pairs.

(** Key columns that [pd.merge] always accepts. *)
Definition any_keys {value : Type}
  : list (@cell value) → list (@cell value) → bool :=
  λ _ _, true.

(** Two cycles on one site, and a site that no cycle refers to. *)
Definition cycles_and_sites : @DataFrame nat :=
  {| series :=
       [ (py "cycle.id",      [Some 1; Some 2; None; None]%nat);
         (py "site.note",     [None; None; None; None]);
         (py "cycle.site.id", [Some 10; Some 10; None; None]%nat);
         (py "site.id",       [None; None; Some 10; Some 11]%nat);
         (py "site.name",     [None; None; Some 100; Some 101]%nat) ];
     index := [0; 1; 2; 3] |}.

(** A cycle and its site both carry a value in the column [name]. *)
Definition shared_column : @DataFrame nat :=
  {| series :=
       [ (py "cycle.id",      [Some 1; None]%nat);
         (py "cycle.site.id", [Some 10; None]%nat);
         (py "site.id",       [None; Some 10]%nat);
         (py "name",          [Some 5; Some 6]%nat) ];
     index := [0; 1] |}.

(** A cycle that refers to no site, and a site. *)
Definition unreferenced_site : @DataFrame nat :=
  {| series :=
       [ (py "cycle.id",      [Some 1; None]%nat);
         (py "cycle.site.id", [None; None]);
         (py "site.id",       [None; Some 10]%nat) ];
     index := [0; 1] |}.

(** Nothing but dashes. *)
Definition only_dashes : @DataFrame nat :=
  {| series :=
       [ (py "cycle.id", [None; None]);
         (py "site.id",  [None; None]) ];
     index := [0; 1] |}.

(** No identifier column, and one row of dashes. *)
Definition no_identifiers : @DataFrame nat :=
  {| series :=
       [ (py "name",  [Some 1; None; Some 2]%nat);
         (py "value", [None; None; Some 3]%nat) ];
     index := [0; 1; 2] |}.

(** A cycle and its site; the plot columns hold nothing but dashes. *)
Definition empty_entity : @DataFrame nat :=
  {| series :=
       [ (py "cycle.id",      [Some 1; None]%nat);
         (py "cycle.site.id", [Some 10; None]%nat);
         (py "site.id",       [None; Some 10]%nat);
         (py "cycle.plot.id", [None; None]);
         (py "plot.id",       [None; None]) ];
     index := [0; 1] |}.

(** * Properties *)

(** ** Regular expressions: the matcher decides the language *)

Lemma lang_eps_iff s : lang Eps s ↔ s = [].
Proof. split; [by inversion 1 | intros ->; constructor]. Qed.

Lemma lang_void_iff s : lang Void s ↔ False.
Proof. split; [by inversion 1 | done]. Qed.

Lemma lang_cls_iff p s : lang (Cls p) s ↔ ∃ c, s = [c] ∧ p c = true.
Proof.
  split.
  - inversion 1; subst; eauto.
  - intros (c & -> & Hc). by constructor.
Qed.

Lemma lang_cat_iff r1 r2 s :
  lang (Cat r1 r2) s ↔ ∃ s1 s2, s = s1 ++ s2 ∧ lang r1 s1 ∧ lang r2 s2.
Proof.
  split.
  - inversion 1; subst; eauto.
  - intros (s1 & s2 & -> & H1 & H2). by constructor.
Qed.

Lemma lang_alt_iff r1 r2 s : lang (Alt r1 r2) s ↔ lang r1 s ∨ lang r2 s.
Proof.
  split.
  - inversion 1; subst; eauto.
  - intros [H|H]; [by apply lang_alt_l | by apply lang_alt_r].
Qed.

Lemma lang_star_unfold r s :
  lang (Star r) s ↔
  s = [] ∨ ∃ c s1 s2, s = (c :: s1) ++ s2 ∧ lang r (c :: s1) ∧ lang (Star r) s2.
Proof.
  split.
  - intros H. remember (Star r) as r' eqn:Er.
    induction H as [| | | | | r0 | r0 s1 s2 H1 _ H2 IH2]; try discriminate.
    + by left.
    + injection Er as ->. destruct s1 as [|c s1].
      * simpl. by apply IH2.
      * right. by exists c, s1, s2.
  - intros [->|(c & s1 & s2 & -> & H1 & H2)]; [constructor|].
    by apply (lang_star_cons r (c :: s1) s2).
Qed.

Lemma nullable_spec r : nullable r = true ↔ lang r [].
Proof.
  induction r as [| |p|r1 IH1 r2 IH2|r1 IH1 r2 IH2|r IH]; simpl.
  - rewrite lang_void_iff. done.
  - rewrite lang_eps_iff. done.
  - rewrite lang_cls_iff. split; [done | by intros (c & ? & _)].
  - rewrite andb_true_iff, IH1, IH2, lang_cat_iff. split.
    + intros [H1 H2]. by exists [], [].
    + intros (s1 & s2 & E & H1 & H2).
      symmetry in E. apply app_eq_nil in E as [-> ->]. done.
  - by rewrite orb_true_iff, IH1, IH2, lang_alt_iff.
  - split; [constructor | done].
Qed.

Lemma deriv_spec c r s : lang (deriv c r) s ↔ lang r (c :: s).
Proof.
  revert s. induction r as [| |p|r1 IH1 r2 IH2|r1 IH1 r2 IH2|r IH];
    intros s; simpl.
  - by rewrite !lang_void_iff.
  - rewrite lang_void_iff, lang_eps_iff. done.
  - rewrite lang_cls_iff. destruct (p c) eqn:Hp.
    + rewrite lang_eps_iff. split.
      * intros ->. eauto.
      * by intros (c' & [= -> ->] & _).
    + rewrite lang_void_iff. split; [done|].
      intros (c' & [= -> ->] & Hp'). congruence.
  - assert (lang (Cat (deriv c r1) r2) s ↔
            ∃ s1 s2, s = s1 ++ s2 ∧ lang r1 (c :: s1) ∧ lang r2 s2) as Hcat.
    { rewrite lang_cat_iff. by setoid_rewrite IH1. }
    rewrite (lang_cat_iff r1 r2).
    destruct (nullable r1) eqn:Hn.
    + rewrite lang_alt_iff, Hcat, IH2. split.
      * intros [(s1 & s2 & -> & H1 & H2)|H2].
        -- by exists (c :: s1), s2.
        -- exists [], (c :: s). by rewrite <- nullable_spec.
      * intros (s1 & s2 & E & H1 & H2). destruct s1 as [|c' s1].
        -- simpl in E. subst s2. by right.
        -- injection E as -> ->. left. eauto.
    + rewrite Hcat. split.
      * intros (s1 & s2 & -> & H1 & H2). by exists (c :: s1), s2.
      * intros (s1 & s2 & E & H1 & H2). destruct s1 as [|c' s1].
        -- apply nullable_spec in H1. congruence.
        -- injection E as -> ->. eauto.
  - by rewrite !lang_alt_iff, IH1, IH2.
  - rewrite lang_cat_iff, (lang_star_unfold r (c :: s)). split.
    + intros (s1 & s2 & -> & H1 & H2). right.
      exists c, s1, s2. by rewrite <- IH.
    + intros [?|(c' & s1 & s2 & [= -> ->] & H1 & H2)]; [done|].
      exists s1, s2. by rewrite IH.
Qed.

Lemma accepts_spec r s : accepts r s = true ↔ lang r s.
Proof.
  revert r. induction s as [|c s IH]; intros r; simpl.
  - apply nullable_spec.
  - by rewrite IH, deriv_spec.
Qed.

Lemma lang_star_cls p s :
  lang (Star (Cls p)) s ↔ Forall (λ c, p c = true) s.
Proof.
  induction s as [|c s IH].
  - split; [constructor | constructor].
  - rewrite lang_star_unfold, Forall_cons. split.
    + intros [?|(c' & s1 & s2 & E & H1 & H2)]; [done|].
      apply lang_cls_iff in H1 as (c0 & [= -> ->] & Hp).
      injection E as -> ->. split; [done | by apply IH].
    + intros [Hp Hs]. right. exists c, [], s.
      split; [done|]. split; [by constructor | by apply IH].
Qed.

Lemma lang_chr c s : lang (Chr c) s ↔ s = [c].
Proof.
  unfold Chr. rewrite lang_cls_iff. split.
  - intros (x & -> & Hx). by apply N.eqb_eq in Hx as ->.
  - intros ->. exists c. by rewrite N.eqb_refl.
Qed.

(** ** Strings *)

Section StringFacts.

Variable uni_alnum : char → bool.
Variable uni_space : char → bool.

Abbreviation is_word' := (is_word uni_alnum).
Abbreviation is_space' := (is_space uni_space).
Abbreviation lstrip' := (lstrip uni_space).
Abbreviation strip' := (strip uni_space).
Abbreviation index_re' := (index_re uni_alnum).
Abbreviation re_match_index' := (re_match_index uni_alnum).
Abbreviation is_index_col' := (is_index_col uni_alnum uni_space).
Abbreviation index_name' := (index_name uni_alnum).

Lemma lstrip_suffix s : ∃ k, s = k ++ lstrip' s.
Proof.
  induction s as [|c s [k IH]]; simpl.
  - by exists [].
  - destruct (is_space' c).
    + exists (c :: k). simpl. by f_equal.
    + by exists [].
Qed.

Lemma lstrip_head s c t : lstrip' s = c :: t → is_space' c = false.
Proof.
  induction s as [|x s IH]; simpl; [done|].
  destruct (is_space' x) eqn:Hx; [done|]. by intros [= <- _].
Qed.

Lemma elem_of_lstrip c s : c ∈ lstrip' s → c ∈ s.
Proof.
  destruct (lstrip_suffix s) as [k E]. intros H.
  rewrite E. apply elem_of_app. by right.
Qed.

Lemma elem_of_strip c s : c ∈ strip' s → c ∈ s.
Proof.
  unfold strip. rewrite elem_of_reverse. intros H.
  apply elem_of_lstrip in H. rewrite elem_of_reverse in H.
  by apply elem_of_lstrip in H.
Qed.

Lemma strip_last s t c : strip' s = t ++ [c] → is_space' c = false.
Proof.
  unfold strip. intros H.
  apply (f_equal reverse) in H.
  rewrite reverse_involutive, reverse_app in H. simpl in H.
  by apply lstrip_head in H.
Qed.

Lemma lang_index_re s : lang index_re' s ↔ index_name' s.
Proof.
  unfold index_re, index_name, Plus, Opt. split.
  - intros H.
    apply lang_cat_iff in H as (w & t & -> & Hw & H).
    apply lang_cat_iff in Hw as (w1 & w2 & -> & Hw1 & Hw2).
    apply lang_cls_iff in Hw1 as (c & -> & Hc).
    apply lang_star_cls in Hw2.
    apply lang_cat_iff in H as (d & t' & -> & Hd & H).
    apply lang_chr in Hd as ->.
    apply lang_cat_iff in H as (a & m & -> & Ha & H).
    apply lang_cat_iff in H as (i & d & -> & Hi & Hd).
    apply lang_chr in Hi as ->. apply lang_chr in Hd as ->.
    exists ([c] ++ w2), (a ++ [105%N] ++ [100%N]).
    split; [done|]. split; [done|]. split; [by constructor|].
    apply lang_alt_iff in Ha as [Ha|Ha].
    + apply lang_chr in Ha as ->. by right.
    + apply lang_eps_iff in Ha as ->. by left.
  - intros (label & marker & -> & Hne & Hw & Hm).
    destruct label as [|c w]; [done|].
    apply Forall_cons in Hw as [Hc Hw].
    apply (lang_cat _ _ (c :: w) (DOT :: marker)).
    + apply (lang_cat _ _ [c] w); [by constructor | by apply lang_star_cls].
    + apply (lang_cat _ _ [DOT]); [by apply lang_chr|].
      destruct Hm as [-> | ->].
      * apply (lang_cat _ _ [] [105%N; 100%N]).
        { apply lang_alt_r. constructor. }
        apply (lang_cat _ _ [105%N] [100%N]); by apply lang_chr.
      * apply (lang_cat _ _ [AT] [105%N; 100%N]).
        { apply lang_alt_l. by apply lang_chr. }
        apply (lang_cat _ _ [105%N] [100%N]); by apply lang_chr.
Qed.

Lemma re_match_index_spec s :
  re_match_index' s = true ↔
  index_name' s ∨ ∃ t, s = t ++ [LF] ∧ index_name' t.
Proof.
  unfold re_match_index, dollar, Opt.
  rewrite accepts_spec, lang_cat_iff. split.
  - intros (t & e & -> & Ht & He). apply lang_index_re in Ht.
    apply lang_alt_iff in He as [He|He].
    + apply lang_chr in He as ->. right. eauto.
    + apply lang_eps_iff in He as ->. left. by rewrite app_nil_r.
  - intros [H|(t & -> & H)]; apply lang_index_re in H.
    + exists s, []. rewrite app_nil_r. split; [done|]. split; [done|].
      apply lang_alt_r. constructor.
    + exists t, [LF]. split; [done|]. split; [done|].
      apply lang_alt_l. by apply lang_chr.
Qed.

(** The test of the first loop: the stripped name has the index shape. *)
Lemma is_index_col_spec col :
  is_index_col' col = true ↔ index_name' (strip' col).
Proof.
  unfold is_index_col. rewrite re_match_index_spec. split.
  - intros [H|(t & E & _)]; [done|].
    apply strip_last in E. by vm_compute in E.
  - by left.
Qed.

Lemma index_name_decide s : index_name' s ↔ accepts index_re' s = true.
Proof. by rewrite accepts_spec, lang_index_re. Qed.

Lemma index_name_elem s : index_name' s → 100%N ∈ s.
Proof.
  intros (label & marker & -> & _ & _ & [-> | ->]);
    rewrite elem_of_app; right; vm_compute; set_solver.
Qed.

Lemma is_index_col_elem col : is_index_col' col = true → 100%N ∈ col.
Proof.
  rewrite is_index_col_spec. intros H%index_name_elem.
  by apply elem_of_strip in H.
Qed.

End StringFacts.

(** ** [rfind] and the split at the second-to-last dot *)

Lemma rfind_scan_spec c s i lo hi acc :
  rfind_scan c s i lo hi acc = acc ∨
  (lo ≤ rfind_scan c s i lo hi acc < hi ∧
   i ≤ rfind_scan c s i lo hi acc ∧
   s !! Z.to_nat (rfind_scan c s i lo hi acc - i) = Some c).
Proof.
  revert i acc. induction s as [|x s IH]; intros i acc; simpl; [by left|].
  destruct (IH (i + 1) (if (x =? c)%N && (lo <=? i) && (i <? hi) then i else acc))
    as [E|(Hr & Hi & Hl)].
  - rewrite E.
    destruct ((x =? c)%N && (lo <=? i) && (i <? hi)) eqn:Hc; [|by left].
    right. apply andb_true_iff in Hc as [Hc Hhi].
    apply andb_true_iff in Hc as [Hx Hlo].
    apply N.eqb_eq in Hx as ->.
    replace (i - i) with 0 by lia. simpl. split; [lia | done].
  - right. split; [done|]. split; [lia|].
    match goal with |- _ !! Z.to_nat (?r - i) = _ => set (r0 := r) in * end.
    replace (Z.to_nat (r0 - i)) with (S (Z.to_nat (r0 - (i + 1)))) by lia.
    done.
Qed.

Lemma slice_bound_range len i : 0 ≤ len → 0 ≤ slice_bound len i ≤ len.
Proof. unfold slice_bound. destruct (i <? 0) eqn:E; lia. Qed.

Lemma rfind_spec c s start stop :
  rfind c s start stop = -1 ∨
  (0 ≤ rfind c s start stop < Z.of_nat (length s) ∧
   s !! Z.to_nat (rfind c s start stop) = Some c).
Proof.
  unfold rfind.
  destruct (rfind_scan_spec c s 0
              (slice_bound (Z.of_nat (length s)) start)
              (slice_bound (Z.of_nat (length s)) stop) (-1))
    as [E|(Hr & Hi & Hl)]; [by left|].
  right. rewrite Z.sub_0_r in Hl. split; [|done].
  apply lookup_lt_Some in Hl. lia.
Qed.

Lemma second_last_dot_lookup col :
  0 < second_last_dot col →
  0 < second_last_dot col < Z.of_nat (length col) ∧
  col !! Z.to_nat (second_last_dot col) = Some DOT.
Proof.
  unfold second_last_dot.
  destruct (rfind_spec DOT col 0 (rfind_all DOT col)) as [E|[Hr Hl]]; lia || auto.
  intros ?. split; [lia | done].
Qed.

Lemma second_last_dot_no_dot col : DOT ∉ col → second_last_dot col = -1.
Proof.
  intros Hd. unfold second_last_dot.
  destruct (rfind_spec DOT col 0 (rfind_all DOT col)) as [E|[_ Hl]]; [done|].
  apply list_elem_of_lookup_2 in Hl. done.
Qed.

Lemma suffix_of_drop col : ∃ n, suffix_of col = drop n col.
Proof. unfold suffix_of, slice_from. eauto. Qed.

Lemma elem_of_suffix_of c col : c ∈ suffix_of col → c ∈ col.
Proof.
  destruct (suffix_of_drop col) as [n ->]. intros H.
  rewrite <- (take_drop n col). apply elem_of_app. by right.
Qed.

(** A positive offset splits the name at a dot, with a non-empty prefix. *)
Lemma second_last_dot_split col :
  0 < second_last_dot col →
  ∃ p, p ≠ [] ∧ col = p ++ DOT :: suffix_of col.
Proof.
  intros H. destruct (second_last_dot_lookup col H) as [Hr Hl].
  exists (take (Z.to_nat (second_last_dot col)) col). split.
  - intros E. apply (f_equal length) in E.
    rewrite length_take in E. simpl in E. lia.
  - unfold suffix_of, slice_from, slice_bound.
    destruct (second_last_dot col + 1 <? 0) eqn:E; [lia|].
    rewrite Z.min_l by lia.
    replace (Z.to_nat (second_last_dot col + 1))
      with (S (Z.to_nat (second_last_dot col))) by lia.
    symmetry. by apply take_drop_middle.
Qed.

(** ** [discover_mappings] *)

Section Discovery.

Variable uni_alnum : char → bool.
Variable uni_space : char → bool.

Abbreviation is_index_col' := (is_index_col uni_alnum uni_space).
Abbreviation collect' := (collect_index_cols uni_alnum uni_space).
Abbreviation discover' := (discover_mappings uni_alnum uni_space).
Abbreviation index_name' := (index_name uni_alnum).
Abbreviation strip' := (strip uni_space).

Lemma scan_col_acc index_cols mappings columns :
  snd (foldl scan_col (index_cols, mappings) columns)
  = mappings ++ emitted index_cols columns.
Proof.
  unfold emitted. revert index_cols mappings.
  induction columns as [|col columns IH]; intros ic ms; simpl.
  - by rewrite app_nil_r.
  - destruct (bool_decide (0 < second_last_dot col) &&
              bool_decide (suffix_of col ∈ ic)).
    + rewrite (IH _ (ms ++ _)), (IH _ [_]). by rewrite <- app_assoc.
    + apply IH.
Qed.

Lemma emitted_nil index_cols : emitted index_cols [] = [].
Proof. done. Qed.

Lemma emitted_cons_claim index_cols col columns :
  0 < second_last_dot col → suffix_of col ∈ index_cols →
  emitted index_cols (col :: columns)
  = (col, suffix_of col) :: emitted (index_cols ∖ {[suffix_of col]}) columns.
Proof.
  intros H1 H2. unfold emitted at 1. simpl.
  rewrite (bool_decide_eq_true_2 _ H1), (bool_decide_eq_true_2 _ H2). simpl.
  by rewrite scan_col_acc.
Qed.

Lemma emitted_cons_skip index_cols col columns :
  ¬ (0 < second_last_dot col ∧ suffix_of col ∈ index_cols) →
  emitted index_cols (col :: columns) = emitted index_cols columns.
Proof.
  intros H. unfold emitted at 1. simpl.
  destruct (bool_decide (0 < second_last_dot col) &&
            bool_decide (suffix_of col ∈ index_cols)) eqn:E; [|done].
  apply andb_true_iff in E as [E1%bool_decide_eq_true E2%bool_decide_eq_true].
  by destruct H.
Qed.

(** The two cases of one iteration. *)
Lemma emitted_cons_cases index_cols col columns :
  (0 < second_last_dot col ∧ suffix_of col ∈ index_cols ∧
   emitted index_cols (col :: columns)
   = (col, suffix_of col) :: emitted (index_cols ∖ {[suffix_of col]}) columns)
  ∨
  (¬ (0 < second_last_dot col ∧ suffix_of col ∈ index_cols) ∧
   emitted index_cols (col :: columns) = emitted index_cols columns).
Proof.
  destruct (decide (0 < second_last_dot col ∧ suffix_of col ∈ index_cols))
    as [[H1 H2]|H].
  - left. eauto using emitted_cons_claim.
  - right. eauto using emitted_cons_skip.
Qed.

Lemma discover_mappings_emitted columns :
  discover' columns = emitted (collect' columns) columns.
Proof. done. Qed.

Lemma emitted_refers index_cols columns ref idx :
  (ref, idx) ∈ emitted index_cols columns →
  ref ∈ columns ∧ idx ∈ index_cols ∧ refers_to ref idx.
Proof.
  revert index_cols. induction columns as [|col columns IH]; intros ic.
  - rewrite emitted_nil. by intros ?%elem_of_nil.
  - destruct (emitted_cons_cases ic col columns) as [(H1 & H2 & ->)|[_ ->]].
    + intros [[= -> ->]|H]%elem_of_cons.
      * split; [left|done].
      * apply IH in H as (? & ? & ?). split; [by right|]. set_solver.
    + intros H. apply IH in H as (? & ? & ?). split; [by right | done].
Qed.

Lemma emitted_targets_nodup index_cols columns :
  NoDup (snd <$> emitted index_cols columns).
Proof.
  revert index_cols. induction columns as [|col columns IH]; intros ic.
  - constructor.
  - destruct (emitted_cons_cases ic col columns) as [(H1 & H2 & ->)|[_ ->]];
      [|apply IH].
    rewrite fmap_cons. simpl. constructor; [|apply IH].
    intros ([ref idx] & E & H)%list_elem_of_fmap. simpl in E. subst idx.
    apply emitted_refers in H as (_ & H & _). set_solver.
Qed.

Lemma emitted_first index_cols columns ref idx :
  (ref, idx) ∈ emitted index_cols columns →
  ∃ pre post, columns = pre ++ ref :: post ∧
              ∀ c, c ∈ pre → ¬ refers_to c idx.
Proof.
  revert index_cols. induction columns as [|col columns IH]; intros ic.
  - rewrite emitted_nil. by intros ?%elem_of_nil.
  - destruct (emitted_cons_cases ic col columns) as [(H1 & H2 & ->)|[Hn ->]].
    + intros [[= -> ->]|H]%elem_of_cons.
      * exists [], columns. split; [done|]. by intros c ?%elem_of_nil.
      * pose proof (emitted_refers _ _ _ _ H) as (_ & Hidx & _).
        apply IH in H as (pre & post & -> & Hpre).
        exists (col :: pre), post. split; [done|].
        intros c [->|Hc]%elem_of_cons; [|by apply Hpre].
        intros [_ E]. set_solver.
    + intros H. pose proof (emitted_refers _ _ _ _ H) as (_ & Hidx & _).
      apply IH in H as (pre & post & -> & Hpre).
      exists (col :: pre), post. split; [done|].
      intros c [->|Hc]%elem_of_cons; [|by apply Hpre].
      intros [Ho E]. apply Hn. by rewrite E.
Qed.

Lemma emitted_sublist index_cols columns :
  sublist (fst <$> emitted index_cols columns) columns.
Proof.
  revert index_cols. induction columns as [|col columns IH]; intros ic.
  - constructor.
  - destruct (emitted_cons_cases ic col columns) as [(H1 & H2 & ->)|[_ ->]].
    + rewrite fmap_cons. simpl. constructor. apply IH.
    + constructor. apply IH.
Qed.

Lemma emitted_empty columns : emitted ∅ columns = [].
Proof.
  destruct (emitted ∅ columns) as [|[ref idx] l] eqn:E; [done|].
  assert ((ref, idx) ∈ emitted ∅ columns) as H by (rewrite E; left).
  apply emitted_refers in H as (_ & H & _). set_solver.
Qed.

Lemma collect_index_cols_acc (acc : gset str) columns col :
  col ∈ foldl (λ index_cols c,
                 if is_index_col' c then index_cols ∪ {[c]} else index_cols)
              acc columns
  ↔ col ∈ acc ∨ (col ∈ columns ∧ is_index_col' col = true).
Proof.
  revert acc. induction columns as [|c columns IH]; intros acc; simpl.
  - set_solver.
  - rewrite IH. destruct (is_index_col' c) eqn:Ec.
    + rewrite elem_of_union, elem_of_singleton, elem_of_cons.
      split; [intros [[?| ->]|[? ?]]; eauto | intros [?|[[->|?] ?]]; eauto].
    + rewrite elem_of_cons.
      split; [intros [?|[? ?]]; eauto | intros [?|[[->|?] ?]]; eauto].
      congruence.
Qed.

Lemma elem_of_collect_index_cols columns col :
  col ∈ collect' columns ↔ col ∈ columns ∧ is_index_col' col = true.
Proof.
  unfold collect_index_cols. rewrite collect_index_cols_acc. set_solver.
Qed.

Lemma emitted_skip_prefix index_cols pre l :
  (∀ c, c ∈ pre → ¬ (0 < second_last_dot c ∧ suffix_of c ∈ index_cols)) →
  emitted index_cols (pre ++ l) = emitted index_cols l.
Proof.
  induction pre as [|c pre IH]; intros H; [done|].
  rewrite <- app_comm_cons, emitted_cons_skip by (apply H; left).
  apply IH. intros c' Hc'. apply H. by right.
Qed.

(** The second loop, position by position. *)
Lemma emitted_positions columns pre cols index_cols :
  columns = pre ++ cols →
  (∀ idx, idx ∈ index_cols ↔
          idx ∈ collect' columns ∧ Forall (λ c, ¬ refers_to c idx) pre) →
  emitted index_cols cols
  = omap id (imap (λ i col,
                     if decide (claims uni_alnum uni_space columns
                                  (length pre + i) col)
                     then Some (col, suffix_of col) else None) cols).
Proof.
  revert pre index_cols. induction cols as [|col rest IH];
    intros pre ic Hcols Hinv; [done|].
  assert (claims uni_alnum uni_space columns (length pre + 0) col ↔
          0 < second_last_dot col ∧ suffix_of col ∈ ic) as Hhead.
  { unfold claims. rewrite Nat.add_0_r, Hcols, take_app_length, Hinv.
    rewrite <- Hcols. tauto. }
  assert (columns = (pre ++ [col]) ++ rest) as Hcols'
    by (by rewrite <- app_assoc).
  assert (∀ ic',
            (∀ idx, idx ∈ ic' ↔
                    idx ∈ collect' columns ∧
                    Forall (λ c, ¬ refers_to c idx) (pre ++ [col])) →
            emitted ic' rest
            = omap id (imap ((λ i c,
                                if decide (claims uni_alnum uni_space columns
                                             (length pre + i) c)
                                then Some (c, suffix_of c) else None) ∘ S)
                         rest)) as Hrest.
  { intros ic' Hinv'. rewrite (IH (pre ++ [col]) ic' Hcols' Hinv').
    f_equal. apply imap_ext. intros i c _. simpl.
    rewrite length_app. simpl.
    by replace (length pre + 1 + i)%nat with (length pre + S i)%nat by lia. }
  rewrite imap_cons.
  destruct (emitted_cons_cases ic col rest) as [(H1 & H2 & ->)|[Hn ->]].
  - rewrite decide_True by (by apply Hhead). simpl. f_equal.
    apply Hrest. intros idx.
    rewrite elem_of_difference, elem_of_singleton, Hinv, Forall_app,
      Forall_singleton.
    unfold refers_to. split.
    + intros [[? ?] Hne]. split; [done|]. split; [done|].
      intros [_ E]. by apply Hne.
    + intros (? & ? & Hnr). split; [done|]. intros ->. by apply Hnr.
  - rewrite decide_False by (by rewrite Hhead). simpl.
    apply Hrest. intros idx. rewrite Hinv, Forall_app, Forall_singleton.
    split; [|tauto]. intros [? ?]. split; [done|]. split; [done|].
    intros [Ho E]. apply Hn. split; [done|]. rewrite E. by apply Hinv.
Qed.

End Discovery.

Section DiscoveryClaims.

Variable uni_alnum : char → bool.
Variable uni_space : char → bool.

Abbreviation is_index_col' := (is_index_col uni_alnum uni_space).
Abbreviation collect' := (collect_index_cols uni_alnum uni_space).
Abbreviation discover' := (discover_mappings uni_alnum uni_space).
Abbreviation index_name' := (index_name uni_alnum).
Abbreviation strip' := (strip uni_space).

(** C4.  Each index column is the join target of at most one mapping, and
    the referencing column that claims it is the first column of the input
    that refers to it; for ["foo.id"; "bar.foo.id"; "baz.foo.id"] the
    result is exactly [("bar.foo.id", "foo.id")]. *)
Theorem discover_mappings_first_match_wins (columns : list str) :
  NoDup (snd <$> discover' columns) ∧
  (∀ ref idx, (ref, idx) ∈ discover' columns →
     idx ∈ collect' columns ∧ refers_to ref idx ∧
     ∃ pre post, columns = pre ++ ref :: post ∧
                 ∀ c, c ∈ pre → ¬ refers_to c idx) ∧
  discover' [py "foo.id"; py "bar.foo.id"; py "baz.foo.id"]
  = [(py "bar.foo.id", py "foo.id")].
Proof.
  split; [apply emitted_targets_nodup|]. split; [|by vm_compute].
  intros ref idx H. rewrite discover_mappings_emitted in H.
  pose proof (emitted_refers _ _ _ _ H) as (_ & Hidx & Href).
  split; [done|]. split; [done|]. by apply emitted_first in H.
Qed.

(** C5, as amended.  A column name is classified as an index column
    exactly when the name with its surrounding whitespace stripped has the
    shape [<word characters>.id] or [<word characters>.@id]; ["foo.id"]
    and ["foo.@id"] qualify, ["foo.bar.id"] and ["foo.id.bar"] do not. *)
Theorem index_column_classification (columns : list str) (col : str) :
  (col ∈ collect' columns ↔ col ∈ columns ∧ index_name' (strip' col)) ∧
  is_index_col' (py "foo.id") = true ∧
  is_index_col' (py "foo.@id") = true ∧
  is_index_col' (py "foo.bar.id") = false ∧
  is_index_col' (py "foo.id.bar") = false.
Proof.
  split; [|by vm_compute].
  by rewrite elem_of_collect_index_cols, is_index_col_spec.
Qed.

(** C6.  The mappings come in the order of their referencing columns in
    the input: the result is obtained by walking the columns from left to
    right and emitting a mapping exactly at each column that claims an
    index column.  So the referencing columns form a subsequence of the
    input, and the first column of the input that refers to an index
    column gives the first mapping. *)
Theorem discover_mappings_input_order (columns : list str) :
  sublist (fst <$> discover' columns) columns ∧
  discover' columns
  = omap id (imap (λ i col,
                     if decide (claims uni_alnum uni_space columns i col)
                     then Some (col, suffix_of col) else None) columns) ∧
  (∀ pre col post,
     columns = pre ++ col :: post →
     0 < second_last_dot col → suffix_of col ∈ collect' columns →
     (∀ c, c ∈ pre →
           ¬ (0 < second_last_dot c ∧ suffix_of c ∈ collect' columns)) →
     head (discover' columns) = Some (col, suffix_of col)) ∧
  discover' [py "x.b.id"; py "b.id"; py "a.id"; py "y.a.id"; py "z.b.id"]
  = [(py "x.b.id", py "b.id"); (py "y.a.id", py "a.id")].
Proof.
  split; [apply emitted_sublist|]. split; [|split; [|by vm_compute]].
  - rewrite discover_mappings_emitted.
    rewrite (emitted_positions uni_alnum uni_space columns [] columns);
      [done..|].
    intros idx. rewrite Forall_nil. tauto.
  - intros pre col post -> Ho Hs Hpre. rewrite discover_mappings_emitted.
    rewrite emitted_skip_prefix by done.
    by rewrite emitted_cons_claim.
Qed.

(** Names without a dot, or made of dots only, never produce a mapping. *)
Lemma dotless_never_mapped (columns : list str) (col : str) :
  DOT ∉ col ∨ Forall (λ c, c = DOT) col →
  (col ∉ fst <$> discover' columns) ∧ (col ∉ snd <$> discover' columns).
Proof.
  intros Hcol.
  assert (is_index_col' col = false) as Hni.
  { destruct (is_index_col' col) eqn:E; [|done].
    pose proof (is_index_col_elem _ _ _ E) as Hd.
    apply is_index_col_spec in E as (l & m & E & _).
    assert (DOT ∈ col) as Hdot.
    { apply (elem_of_strip uni_space). rewrite E. set_solver. }
    destruct Hcol as [?|Hall]; [done|].
    rewrite Forall_forall in Hall. by apply Hall in Hd. }
  split.
  - intros ([ref idx] & E & H)%list_elem_of_fmap. simpl in E. subst ref.
    rewrite discover_mappings_emitted in H.
    apply emitted_refers in H as (_ & Hidx & [Ho Hs]).
    destruct Hcol as [Hnd|Hall].
    + rewrite second_last_dot_no_dot in Ho by done. lia.
    + apply elem_of_collect_index_cols in Hidx as [_ Hidx].
      apply is_index_col_elem in Hidx. subst idx.
      apply elem_of_suffix_of in Hidx.
      rewrite Forall_forall in Hall. by apply Hall in Hidx.
  - intros ([ref idx] & E & H)%list_elem_of_fmap. simpl in E. subst idx.
    rewrite discover_mappings_emitted in H.
    apply emitted_refers in H as (_ & Hidx & _).
    apply elem_of_collect_index_cols in Hidx as [_ Hidx]. congruence.
Qed.

(** C7, as amended.  When no column name, once stripped of surrounding
    whitespace, has the index-column shape, no mapping is returned; a name
    without a dot or made of dots only is on neither side of any mapping;
    the function is total. *)
Theorem discover_mappings_no_index_columns (columns : list str) :
  ((∀ col, col ∈ columns → ¬ index_name' (strip' col)) →
   discover' columns = []) ∧
  (∀ col, DOT ∉ col ∨ Forall (λ c, c = DOT) col →
          (col ∉ fst <$> discover' columns) ∧
          (col ∉ snd <$> discover' columns)) ∧
  discover' [] = [] ∧ discover' [py "."] = [] ∧
  discover' [py "a.b.c"] = [].
Proof.
  split; [intros H|split; [apply dotless_never_mapped | by vm_compute]].
  rewrite discover_mappings_emitted.
  replace (collect' columns) with (∅ : gset str); [apply emitted_empty|].
  symmetry. apply leibniz_equiv, elem_of_equiv_empty. intros col.
  rewrite elem_of_collect_index_cols, is_index_col_spec.
  intros [Hc Hn]. by apply (H col).
Qed.

(** C10.  In every returned mapping the referencing name is a non-empty
    prefix, a dot, and the index name: it is strictly longer than the
    index name, and the two names differ. *)
Theorem discover_mappings_ref_extends_idx (columns : list str) (ref idx : str) :
  (ref, idx) ∈ discover' columns →
  (∃ p, p ≠ [] ∧ ref = p ++ DOT :: idx) ∧
  0 < second_last_dot ref ∧
  (length idx < length ref)%nat ∧
  ref ≠ idx.
Proof.
  intros H. rewrite discover_mappings_emitted in H.
  apply emitted_refers in H as (_ & _ & [Ho <-]).
  destruct (second_last_dot_split ref Ho) as (p & Hp & E).
  assert (length (suffix_of ref) < length ref)%nat as Hlen.
  { rewrite E at 2. rewrite length_app. simpl. lia. }
  split; [eauto|]. split; [done|]. split; [done|].
  intros Eq. rewrite <- Eq in Hlen. lia.
Qed.

End DiscoveryClaims.

Lemma discover_mappings_no_index_columns_witness :
  (∀ col, col ∈ [py "a.b.c"; py "with.id.x"] →
          ¬ index_name ascii_only (strip ascii_only col)) ∧
  discover_mappings ascii_only ascii_only [py "a.b.c"; py "with.id.x"] = [] ∧
  (DOT ∉ py "ostrich" ∨ Forall (λ c, c = DOT) (py "ostrich")) ∧
  (py "ostrich"
     ∉ fst <$> discover_mappings ascii_only ascii_only
                 [py "foo.id"; py "ostrich"; py "bar.foo.id"]) ∧
  (py "ostrich"
     ∉ snd <$> discover_mappings ascii_only ascii_only
                 [py "foo.id"; py "ostrich"; py "bar.foo.id"]).
Proof.
  assert (∀ col, col ∈ [py "a.b.c"; py "with.id.x"] →
                 ¬ index_name ascii_only (strip ascii_only col)) as H.
  { intros col Hc. rewrite <- is_index_col_spec.
    apply elem_of_cons in Hc as [->|Hc]; [by vm_compute|].
    apply elem_of_cons in Hc as [->|Hc]; [by vm_compute|].
    by apply elem_of_nil in Hc. }
  assert (DOT ∉ py "ostrich" ∨ Forall (λ c, c = DOT) (py "ostrich")) as Hd
    by (left; refine (@bool_decide_unpack (DOT ∉ py "ostrich") _ _);
        vm_compute; exact I).
  split; [exact H|].
  split;
    [exact (proj1 (discover_mappings_no_index_columns ascii_only ascii_only
                     [py "a.b.c"; py "with.id.x"]) H)|].
  split; [exact Hd|].
  exact (proj1 (proj2 (discover_mappings_no_index_columns ascii_only
                         ascii_only
                         [py "foo.id"; py "ostrich"; py "bar.foo.id"]))
           (py "ostrich") Hd).
Defined.

Lemma discover_mappings_ref_extends_idx_witness :
  (py "bar.foo.id", py "foo.id")
    ∈ discover_mappings ascii_only ascii_only [py "foo.id"; py "bar.foo.id"] ∧
  (∃ p, p ≠ [] ∧ py "bar.foo.id" = p ++ DOT :: py "foo.id") ∧
  0 < second_last_dot (py "bar.foo.id") ∧
  (length (py "foo.id") < length (py "bar.foo.id"))%nat ∧
  py "bar.foo.id" ≠ py "foo.id".
Proof.
  assert ((py "bar.foo.id", py "foo.id")
            ∈ discover_mappings ascii_only ascii_only
                [py "foo.id"; py "bar.foo.id"]) as H.
  { vm_compute. left. }
  split; [exact H|].
  exact (discover_mappings_ref_extends_idx ascii_only ascii_only _ _ _ H).
Defined.

(** C5 as stated fails: a name with a leading space is classified as an
    index column although it does not have the index-column shape. *)
Lemma index_column_pattern_counterexample :
  ¬ (py " foo.id" ∈ collect_index_cols ascii_only ascii_only [py " foo.id"]
     ↔ py " foo.id" ∈ [py " foo.id"] ∧ index_name ascii_only (py " foo.id")).
Proof.
  intros [Hl _].
  assert (index_name ascii_only (py " foo.id")) as Hn.
  { apply Hl. apply elem_of_collect_index_cols. split; [left | by vm_compute]. }
  apply index_name_decide in Hn. by vm_compute in Hn.
Qed.

(** C7 as stated fails: no name below has the index-column shape, yet a
    mapping is returned. *)
Lemma discover_mappings_pattern_counterexample :
  ¬ ((∀ col, col ∈ [py " foo.id"; py "bar. foo.id"] →
             ¬ index_name ascii_only col) →
     discover_mappings ascii_only ascii_only [py " foo.id"; py "bar. foo.id"]
     = []).
Proof.
  intros H.
  assert (∀ col, col ∈ [py " foo.id"; py "bar. foo.id"] →
                 ¬ index_name ascii_only col) as Hn.
  { intros col Hc Hi. apply index_name_decide in Hi.
    apply elem_of_cons in Hc as [->|Hc]; [by vm_compute in Hi|].
    apply elem_of_cons in Hc as [->|Hc]; [by vm_compute in Hi|].
    by apply elem_of_nil in Hc. }
  apply H in Hn. by vm_compute in Hn.
Qed.

(** ** Frames *)

Section FrameFacts.

Context {value : Type} `{EqDecision value}.

Abbreviation Frame := (@DataFrame value).
Abbreviation Cell := (@cell value).

Lemma compress_nil_r {A} mask : compress mask ([] : list A) = [].
Proof. by destruct mask. Qed.

Lemma compress_fmap {A B} (f : A → B) mask (l : list A) :
  compress mask (f <$> l) = f <$> compress mask l.
Proof.
  revert l. induction mask as [|b mask IH]; intros [|x l]; simpl; try done.
  destruct b; simpl; by rewrite IH.
Qed.

Lemma length_compress_eq {A B} mask (l1 : list A) (l2 : list B) :
  length l1 = length l2 →
  length (compress mask l1) = length (compress mask l2).
Proof.
  revert l1 l2. induction mask as [|b mask IH];
    intros [|x l1] [|y l2] E; simpl in *; try done.
  injection E as E. destruct b; simpl; auto.
Qed.

Lemma compress_filter {A} (P : A → Prop) `{∀ x, Decision (P x)} (l : list A) :
  compress ((λ x, bool_decide (P x)) <$> l) l = filter P l.
Proof.
  induction l as [|x l IH]; [done|].
  rewrite fmap_cons, filter_cons. cbn [compress].
  destruct (decide (P x)) as [Hp|Hp].
  - rewrite bool_decide_eq_true_2 by done. by rewrite IH.
  - rewrite bool_decide_eq_false_2 by done. by rewrite IH.
Qed.

Lemma elem_of_compress {A} mask (l : list A) x :
  x ∈ compress mask l → x ∈ l.
Proof.
  revert l. induction mask as [|b mask IH]; intros [|y l]; simpl;
    try by intros ?%elem_of_nil.
  destruct b.
  - intros [->|H]%elem_of_cons; [left | right; by apply IH].
  - intros H. right. by apply IH.
Qed.

Lemma cell_at_tail (cells : list Cell) i :
  cell_at (tail cells) i = cell_at cells (S i).
Proof. by destruct cells. Qed.

Lemma row_at_tail_frame (df : Frame) i :
  row_at (tail_frame df) i = row_at df (S i).
Proof.
  unfold row_at, tail_frame. simpl. rewrite <- list_fmap_compose.
  apply list_fmap_ext. intros _ c _. simpl. apply cell_at_tail.
Qed.

Lemma rows_cons (df : Frame) l0 idx :
  index df = l0 :: idx →
  rows df = row_at df 0 :: rows (tail_frame df).
Proof.
  intros E. unfold rows, nrows, tail_frame at 2. simpl. rewrite E. simpl.
  f_equal. rewrite <- fmap_S_seq, <- list_fmap_compose.
  apply list_fmap_ext. intros _ i _. simpl. by rewrite row_at_tail_frame.
Qed.

Lemma rows_nil (df : Frame) : index df = [] → rows df = [].
Proof. intros E. unfold rows, nrows. by rewrite E. Qed.

Lemma columns_select_rows (df : Frame) mask :
  columns (select_rows df mask) = columns df.
Proof.
  unfold columns, select_rows. simpl. rewrite <- list_fmap_compose.
  by apply list_fmap_ext.
Qed.

Lemma select_rows_false (df : Frame) mask :
  select_rows df (false :: mask) = select_rows (tail_frame df) mask.
Proof.
  unfold select_rows, tail_frame. simpl. f_equal.
  - rewrite <- list_fmap_compose. apply list_fmap_ext. intros _ [n cells] _.
    simpl. destruct cells; simpl; [by rewrite compress_nil_r | done].
  - destruct (index df); simpl; [by rewrite compress_nil_r | done].
Qed.

Lemma tail_frame_select_rows_true (df : Frame) mask :
  tail_frame (select_rows df (true :: mask))
  = select_rows (tail_frame df) mask.
Proof.
  unfold select_rows, tail_frame. simpl. f_equal.
  - rewrite <- !list_fmap_compose. apply list_fmap_ext. intros _ [n cells] _.
    simpl. destruct cells; simpl; [by rewrite compress_nil_r | done].
  - destruct (index df); simpl; [by rewrite compress_nil_r | done].
Qed.

Lemma row_at_select_rows_true (df : Frame) mask :
  row_at (select_rows df (true :: mask)) 0 = row_at df 0.
Proof.
  unfold row_at, select_rows. simpl. rewrite <- list_fmap_compose.
  apply list_fmap_ext. intros _ [n cells] _. simpl. by destruct cells.
Qed.

(** Selecting rows by a mask selects the rows, whatever the columns. *)
Lemma rows_select_rows (df : Frame) mask :
  rows (select_rows df mask) = compress mask (rows df).
Proof.
  revert df. induction mask as [|b mask IH]; intros df.
  - by apply rows_nil.
  - destruct (index df) as [|l0 idx] eqn:E.
    + rewrite (rows_nil df E), compress_nil_r. apply rows_nil. simpl.
      by rewrite E.
    + rewrite (rows_cons df _ _ E). simpl. destruct b.
      * rewrite <- IH, <- tail_frame_select_rows_true,
          <- (row_at_select_rows_true df mask).
        apply (rows_cons _ l0 (compress mask idx)). simpl. by rewrite E.
      * by rewrite select_rows_false, IH.
Qed.

Lemma row_has_value_rows (df : Frame) :
  row_has_value df = (λ r, bool_decide (¬ empty_row r)) <$> rows df.
Proof.
  unfold row_has_value, rows. rewrite <- list_fmap_compose.
  apply list_fmap_ext. intros _ i _. simpl.
  unfold row_at, empty_row.
  induction (series df) as [|c l IH]; [rewrite fmap_nil | rewrite fmap_cons];
    cbn [existsb].
  - symmetry. apply bool_decide_eq_false_2. intros H. apply H. constructor.
  - rewrite IH. destruct (cell_at (snd c) i) as [v|] eqn:Ec.
    + rewrite bool_decide_eq_true_2 by eauto. cbn [orb]. symmetry.
      apply bool_decide_eq_true_2. by intros [? _]%Forall_cons.
    + rewrite (bool_decide_eq_false_2 (is_Some None)) by (by intros [? ?]).
      cbn [orb]. apply bool_decide_ext. rewrite Forall_cons. naive_solver.
Qed.

(** [dropna(how='all')] keeps exactly the rows that hold a value. *)
Lemma rows_dropna_rows (df : Frame) :
  rows (dropna_rows df) = filter (λ r, ¬ empty_row r) (rows df).
Proof.
  unfold dropna_rows.
  by rewrite rows_select_rows, row_has_value_rows, compress_filter.
Qed.

Lemma columns_dropna_rows (df : Frame) :
  columns (dropna_rows df) = columns df.
Proof. apply columns_select_rows. Qed.

Lemma nrows_rows (df : Frame) : length (rows df) = nrows df.
Proof. unfold rows. by rewrite length_fmap, length_seq. Qed.

End FrameFacts.

Section WellFormed.

Context {value : Type} `{EqDecision value}.

Lemma well_formed_select_rows (df : @DataFrame value) mask :
  well_formed df → well_formed (select_rows df mask).
Proof.
  intros [Hn Hl]. split.
  - fold (columns (select_rows df mask)). by rewrite columns_select_rows.
  - unfold select_rows. simpl. apply Forall_fmap.
    eapply Forall_impl; [exact Hl|]. intros [n cells] E. simpl in *.
    by apply length_compress_eq.
Qed.

Lemma compress_all_true {A} (l : list A) :
  compress (replicate (length l) true) l = l.
Proof. induction l as [|x l IH]; simpl; [done | by rewrite IH]. Qed.

Lemma select_rows_all_true (df : @DataFrame value) :
  well_formed df → select_rows df (replicate (nrows df) true) = df.
Proof.
  intros [_ Hl]. destruct df as [cols idx]. unfold select_rows, nrows.
  simpl in *. f_equal; [|apply compress_all_true].
  induction Hl as [|[n cells] cols E _ IH]; [done|].
  rewrite fmap_cons, IH. simpl in *. by rewrite <- E, compress_all_true.
Qed.

Lemma row_has_value_all_true (df : @DataFrame value) :
  (∀ r, r ∈ rows df → ¬ empty_row r) →
  row_has_value df = replicate (nrows df) true.
Proof.
  intros H. rewrite row_has_value_rows, <- nrows_rows.
  induction (rows df) as [|r l IH]; simpl; [done|].
  rewrite bool_decide_eq_true_2 by (apply H; left).
  f_equal. apply IH. intros r' Hr'. apply H. by right.
Qed.

Lemma dropna_rows_idemp (df : @DataFrame value) :
  well_formed df → dropna_rows (dropna_rows df) = dropna_rows df.
Proof.
  intros Hwf. unfold dropna_rows at 1.
  rewrite row_has_value_all_true.
  - apply select_rows_all_true. by apply well_formed_select_rows.
  - intros r. rewrite rows_dropna_rows.
    by intros [? _]%list_elem_of_filter.
Qed.

Lemma dropna_rows_all_missing (df : @DataFrame value) :
  (∀ r, r ∈ rows df → empty_row r) → nrows (dropna_rows df) = 0%nat.
Proof.
  intros H. rewrite <- nrows_rows, rows_dropna_rows.
  induction (rows df) as [|r l IH]; [done|].
  rewrite filter_cons_False by (intros Hn; apply Hn, H; left).
  apply IH. intros r' Hr'. apply H. by right.
Qed.

End WellFormed.

Section EarlyReturns.

Context {value : Type} `{EqDecision value}.
Variable key_order :
  list (@cell value) → list (@cell value) → list pairing → list pairing.
Variable keys_compatible : list (@cell value) → list (@cell value) → bool.
Variable uni_alnum : char → bool.
Variable uni_space : char → bool.

Abbreviation merge_rows' := (merge_rows key_order keys_compatible uni_alnum uni_space).

Lemma merge_rows_no_rows (df : @DataFrame value) :
  nrows (dropna_rows df) = 0%nat → merge_rows' df = ([], Ok (dropna_rows df)).
Proof.
  intros E. unfold merge_rows. by rewrite (bool_decide_eq_true_2 _ E).
Qed.

(** C8.  [merge_rows] works on the table without its all-missing rows;
    when no row is left that table is returned at once, nothing is logged
    and no join is attempted; an input whose cells are all missing gives
    the same header and no rows. *)
Theorem merge_rows_drops_empty_rows (df : @DataFrame value) :
  well_formed df →
  merge_rows' df = merge_rows' (dropna_rows df) ∧
  rows (dropna_rows df) = filter (λ r, ¬ empty_row r) (rows df) ∧
  columns (dropna_rows df) = columns df ∧
  (nrows (dropna_rows df) = 0%nat →
   merge_rows' df = ([], Ok (dropna_rows df))) ∧
  ((∀ r, r ∈ rows df → empty_row r) →
   merge_rows' df = ([], Ok (dropna_rows df)) ∧
   rows (dropna_rows df) = []).
Proof.
  intros Hwf. split; [|split; [|split; [|split]]].
  - unfold merge_rows, restore_columns.
    by rewrite (dropna_rows_idemp df Hwf), !columns_dropna_rows.
  - apply rows_dropna_rows.
  - apply columns_dropna_rows.
  - apply merge_rows_no_rows.
  - intros Ha. pose proof (dropna_rows_all_missing df Ha) as E.
    split; [by apply merge_rows_no_rows|].
    apply nil_length_inv. by rewrite nrows_rows.
Qed.

(** C9.  When discovery finds no mapping, the table without its
    all-missing rows is returned as it is; a warning is logged when that
    table has rows, and nothing about a join is ever logged. *)
Theorem merge_rows_no_mappings (df : @DataFrame value) :
  discover_mappings uni_alnum uni_space (columns df) = [] →
  ∃ log,
    merge_rows' df = (log, Ok (dropna_rows df)) ∧
    (nrows (dropna_rows df) ≠ 0%nat → log = [WarnNoJoins]) ∧
    (∀ e, e ∈ log → e = WarnNoJoins) ∧
    rows (dropna_rows df) = filter (λ r, ¬ empty_row r) (rows df) ∧
    columns (dropna_rows df) = columns df.
Proof.
  intros Hd. unfold merge_rows. rewrite columns_dropna_rows, Hd. simpl.
  destruct (decide (nrows (dropna_rows df) = 0%nat)) as [E|E].
  - rewrite (bool_decide_eq_true_2 _ E). exists []. split; [done|].
    split; [done|]. split; [by intros e ?%elem_of_nil|].
    split; [apply rows_dropna_rows | done].
  - rewrite (bool_decide_eq_false_2 _ E). exists [WarnNoJoins].
    split; [done|]. split; [done|].
    split; [by intros e ->%list_elem_of_singleton|].
    split; [apply rows_dropna_rows | done].
Qed.

End EarlyReturns.

(** ** [do_joins]: the overlap check *)

Section Overlap.

Context {value : Type} `{EqDecision value}.
Variable key_order :
  list (@cell value) → list (@cell value) → list pairing → list pairing.
Variable keys_compatible : list (@cell value) → list (@cell value) → bool.

Abbreviation join_step' := (join_step key_order keys_compatible).
Abbreviation do_joins' := (do_joins key_order keys_compatible).

Lemma elem_of_overlap_of (a b : @DataFrame value) c :
  c ∈ overlap_of a b ↔ c ∈ columns a ∧ c ∈ columns b.
Proof.
  unfold overlap_of. by rewrite elem_of_intersection, !elem_of_list_to_set.
Qed.

Lemma overlap_size_pos (a b : @DataFrame value) :
  (0 < size (overlap_of a b))%nat ↔ ∃ c, c ∈ columns a ∧ c ∈ columns b.
Proof.
  split.
  - intros [c Hc]%size_pos_elem_of. exists c. by apply elem_of_overlap_of.
  - intros [c Hc]. apply elem_of_overlap_of in Hc.
    destruct (decide (size (overlap_of a b) = 0%nat)) as [E|E]; [|lia].
    apply size_empty_inv in E. set_solver.
Qed.

Lemma do_joins_cons_ok (df df' : @DataFrame value) ref_col id_col log rest :
  join_step' df ref_col id_col = (log, Ok df') →
  do_joins' df ((ref_col, id_col) :: rest)
  = (log ++ fst (do_joins' df' rest), snd (do_joins' df' rest)).
Proof. intros E. simpl. rewrite E. by destruct (do_joins' df' rest). Qed.

(** C1.  When the joinable partition is not empty and the two narrowed
    partitions share a column name, the join is not performed: one warning
    carrying exactly the shared names is logged, and the next mapping
    starts from the very table this one started from. *)
Theorem do_joins_overlap_skips
    (df : @DataFrame value) (ref_col id_col : str) (ids : list (@cell value))
    (rest : list (str * str)) :
  loc df id_col = Ok ids →
  nrows (joinable df ids) ≠ 0%nat →
  (∃ c, c ∈ columns (dropna_columns (joinable df ids)) ∧
        c ∈ columns (dropna_columns (remainder df ids))) →
  ∃ overlap : gset str,
    (∀ c, c ∈ overlap ↔
          c ∈ columns (dropna_columns (joinable df ids)) ∧
          c ∈ columns (dropna_columns (remainder df ids))) ∧
    join_step' df ref_col id_col = ([WarnOverlap id_col overlap], Ok df) ∧
    do_joins' df ((ref_col, id_col) :: rest)
    = (WarnOverlap id_col overlap :: fst (do_joins' df rest),
       snd (do_joins' df rest)).
Proof.
  intros Hloc Hrows Hshared.
  exists (overlap_of (dropna_columns (joinable df ids))
                     (dropna_columns (remainder df ids))).
  assert (join_step' df ref_col id_col
          = ([WarnOverlap id_col
                (overlap_of (dropna_columns (joinable df ids))
                            (dropna_columns (remainder df ids)))], Ok df))
    as Hstep.
  { unfold join_step. rewrite Hloc.
    rewrite (bool_decide_eq_false_2 _ Hrows).
    apply overlap_size_pos in Hshared.
    by rewrite (bool_decide_eq_true_2 _ Hshared). }
  split; [apply elem_of_overlap_of|]. split; [done|].
  by rewrite (do_joins_cons_ok _ _ _ _ _ _ Hstep).
Qed.

End Overlap.

(** ** The pairs of an outer merge *)

Section OuterPairs.

Context {value : Type} `{EqDecision value}.

Implicit Types (lk rk : list (@cell value)) (k : @cell value) (p : pairing).

Lemma elem_of_matches_of k rk j : j ∈ matches_of k rk ↔ rk !! j = Some k.
Proof.
  unfold matches_of. rewrite list_elem_of_filter, elem_of_seq. split.
  - by intros [? _].
  - intros E. split; [done|]. apply lookup_lt_Some in E. lia.
Qed.

Lemma NoDup_matches_of k rk : NoDup (matches_of k rk).
Proof. apply NoDup_filter, NoDup_seq. Qed.

Lemma matches_of_nil k rk : matches_of k rk = [] ↔ k ∉ rk.
Proof.
  split.
  - intros E [j Hj]%list_elem_of_lookup.
    apply elem_of_matches_of in Hj. rewrite E in Hj. by apply elem_of_nil in Hj.
  - intros Hk. destruct (matches_of k rk) as [|j js] eqn:E; [done|].
    destruct Hk. apply (list_elem_of_lookup_2 _ j).
    apply elem_of_matches_of. rewrite E. left.
Qed.

Lemma elem_of_left_row_pairs rk i k p :
  p ∈ left_row_pairs rk i k ↔
  (∃ j, p = (Some i, Some j) ∧ rk !! j = Some k) ∨
  (p = (Some i, None) ∧ k ∉ rk).
Proof.
  unfold left_row_pairs.
  destruct (matches_of k rk) as [|j0 js] eqn:E.
  - apply matches_of_nil in E. rewrite list_elem_of_singleton. split.
    + intros ->. by right.
    + intros [(j & -> & Hj)|[-> _]]; [|done].
      destruct E. by apply (list_elem_of_lookup_2 _ j).
  - rewrite <- E, list_elem_of_fmap. split.
    + intros (j & -> & Hj). left. exists j.
      by rewrite <- elem_of_matches_of.
    + intros [(j & -> & Hj)|[_ Hk]].
      * exists j. by rewrite elem_of_matches_of.
      * apply matches_of_nil in Hk. congruence.
Qed.

Lemma NoDup_left_row_pairs rk i k : NoDup (left_row_pairs rk i k).
Proof.
  unfold left_row_pairs. pose proof (NoDup_matches_of k rk) as Hn.
  destruct (matches_of k rk) as [|j0 js].
  - apply NoDup_singleton.
  - apply NoDup_fmap_2; [|done]. by intros j j' [= ->].
Qed.

Lemma NoDup_join_imap {A B} (f : nat → A → list B) (key : B → nat)
    (l : list A) :
  (∀ i x, NoDup (f i x)) →
  (∀ i x y, y ∈ f i x → key y = i) →
  NoDup (mjoin (imap f l)).
Proof.
  revert f key. induction l as [|x l IH]; intros f key Hn Hk.
  - constructor.
  - rewrite imap_cons. simpl. apply NoDup_app. split; [apply Hn|]. split.
    + intros y Hy (l' & Hy' & Hl')%list_elem_of_join.
      apply elem_of_lookup_imap in Hl' as (i & x' & -> & _).
      apply Hk in Hy, Hy'. simpl in Hy'. lia.
    + apply (IH _ (λ y, pred (key y))).
      * intros i x'. apply Hn.
      * intros i x' y Hy. apply Hk in Hy. simpl in Hy. lia.
Qed.

Lemma NoDup_omap_imap {A B} (f : nat → A → option B) (key : B → nat)
    (l : list A) :
  (∀ i x y, f i x = Some y → key y = i) →
  NoDup (omap id (imap f l)).
Proof.
  revert f key. induction l as [|x l IH]; intros f key Hk.
  - constructor.
  - rewrite imap_cons. simpl.
    assert (NoDup (omap id (imap (f ∘ S) l))) as Hrest.
    { apply (IH _ (λ y, pred (key y))). intros i x' y Hy.
      apply Hk in Hy. simpl in Hy. lia. }
    destruct (f 0%nat x) as [y|] eqn:E; simpl; [|done].
    constructor; [|done].
    intros (o & Ho & Hy)%list_elem_of_omap. simpl in Hy. subst o.
    apply elem_of_lookup_imap in Ho as (i & x' & Ho & _).
    symmetry in Ho. apply Hk in Ho, E. lia.
Qed.

Lemma elem_of_left_pairs lk rk p :
  p ∈ mjoin (imap (left_row_pairs rk) lk) ↔
  ∃ i k, lk !! i = Some k ∧ p ∈ left_row_pairs rk i k.
Proof.
  rewrite list_elem_of_join. split.
  - intros (l & Hp & Hl). apply elem_of_lookup_imap in Hl as (i & k & -> & E).
    eauto.
  - intros (i & k & E & Hp). exists (left_row_pairs rk i k).
    split; [done|]. by apply elem_of_lookup_imap_2.
Qed.

Lemma elem_of_right_only_pairs lk rk p :
  p ∈ right_only_pairs lk rk ↔
  ∃ j k, rk !! j = Some k ∧ (k ∉ lk) ∧ p = (None, Some j).
Proof.
  unfold right_only_pairs. rewrite list_elem_of_omap. split.
  - intros (o & Ho & E). simpl in E. subst o.
    apply elem_of_lookup_imap in Ho as (j & k & Ho & Hk).
    destruct (decide (k ∈ lk)); [done|]. injection Ho as ->. eauto.
  - intros (j & k & Hj & Hk & ->). exists (Some (None, Some j)).
    split; [|done]. apply elem_of_lookup_imap. exists j, k.
    split; [|done]. by rewrite decide_False.
Qed.

(** The pairs of an outer merge: every matching pair of rows once, every
    unmatched row of either side once, and nothing else. *)
Lemma outer_pairs_spec lk rk :
  NoDup (outer_pairs lk rk) ∧
  (∀ i j, (Some i, Some j) ∈ outer_pairs lk rk ↔
          ∃ k, lk !! i = Some k ∧ rk !! j = Some k) ∧
  (∀ i, (Some i, None) ∈ outer_pairs lk rk ↔
        ∃ k, lk !! i = Some k ∧ k ∉ rk) ∧
  (∀ j, (None, Some j) ∈ outer_pairs lk rk ↔
        ∃ k, rk !! j = Some k ∧ k ∉ lk) ∧
  (None, None) ∉ outer_pairs lk rk.
Proof.
  unfold outer_pairs. split; [|split; [|split; [|split]]].
  - apply NoDup_app. split; [|split].
    + apply (NoDup_join_imap _ (λ p, default 0%nat (fst p))).
      * intros i k. apply NoDup_left_row_pairs.
      * intros i k p [(j & -> & _)|[-> _]]%elem_of_left_row_pairs; done.
    + intros p (i & k & _ & Hp)%elem_of_left_pairs
        (j & k' & _ & _ & ->)%elem_of_right_only_pairs.
      by apply elem_of_left_row_pairs in Hp as [(j' & [=] & _)|[[=] _]].
    + apply (NoDup_omap_imap _ (λ p, default 0%nat (snd p))).
      intros j k p Hp. destruct (decide (k ∈ lk)); [done|].
      by injection Hp as <-.
  - intros i j. rewrite elem_of_app, elem_of_left_pairs,
      elem_of_right_only_pairs. split.
    + intros [(i' & k & E & Hp)|(j' & k & _ & _ & [=])].
      apply elem_of_left_row_pairs in Hp as [(j' & [= -> ->] & Hj)|[[=] _]].
      eauto.
    + intros (k & Hi & Hj). left. exists i, k. split; [done|].
      apply elem_of_left_row_pairs. left. eauto.
  - intros i. rewrite elem_of_app, elem_of_left_pairs,
      elem_of_right_only_pairs. split.
    + intros [(i' & k & E & Hp)|(j' & k & _ & _ & [=])].
      apply elem_of_left_row_pairs in Hp as [(j' & [=] & _)|[[= ->] Hk]].
      eauto.
    + intros (k & Hi & Hk). left. exists i, k. split; [done|].
      apply elem_of_left_row_pairs. by right.
  - intros j. rewrite elem_of_app, elem_of_left_pairs,
      elem_of_right_only_pairs. split.
    + intros [(i' & k & E & Hp)|(j' & k & Hj & Hk & [= ->])]; [|eauto].
      by apply elem_of_left_row_pairs in Hp as [(j' & [=] & _)|[[=] _]].
    + intros (k & Hj & Hk). right. eauto.
  - rewrite elem_of_app, elem_of_left_pairs, elem_of_right_only_pairs.
    intros [(i' & k & E & Hp)|(j' & k & _ & _ & [=])].
    by apply elem_of_left_row_pairs in Hp as [(j' & [=] & _)|[[=] _]].
Qed.

End OuterPairs.

(** ** Columns by name, and the two partitions *)

Section Partitions.

Context {value : Type} `{EqDecision value}.

Implicit Types (df : @DataFrame value) (cells ids : list (@cell value)).

Lemma loc_Ok_elem df name cells :
  loc df name = Ok cells → (name, cells) ∈ series df.
Proof.
  unfold loc. destruct (list_find _ _) as [[i [n c]]|] eqn:E; [|done].
  intros [= <-]. apply list_find_Some in E as (Hi & Hn & _).
  simpl in Hn. subst n. by apply (list_elem_of_lookup_2 _ i).
Qed.

Lemma loc_Raise df name e :
  loc df name = Raise e → e = KeyError name ∧ name ∉ columns df.
Proof.
  unfold loc. destruct (list_find _ _) as [[i [n c]]|] eqn:E; [done|].
  intros [= <-]. split; [done|]. apply list_find_None in E.
  intros ([n c] & -> & Hc)%list_elem_of_fmap.
  rewrite Forall_forall in E. by apply (E _ Hc).
Qed.

Lemma loc_columns df name :
  name ∈ columns df → ∃ cells, loc df name = Ok cells.
Proof.
  intros Hn. destruct (loc df name) as [cells|e] eqn:E; [eauto|].
  by apply loc_Raise in E as [_ ?].
Qed.

Lemma loc_Ok_columns df name cells :
  loc df name = Ok cells → name ∈ columns df.
Proof.
  intros H%loc_Ok_elem. apply list_elem_of_fmap. by exists (name, cells).
Qed.

Lemma NoDup_fst_unique {A B} (l : list (A * B)) x y1 y2 :
  NoDup (fst <$> l) → (x, y1) ∈ l → (x, y2) ∈ l → y1 = y2.
Proof.
  induction l as [|[a b] l IH]; [by intros _ ?%elem_of_nil|].
  rewrite fmap_cons. intros [Ha Hl]%NoDup_cons H1 H2. simpl in Ha.
  apply elem_of_cons in H1 as [E1|H1]; apply elem_of_cons in H2 as [E2|H2].
  - congruence.
  - injection E1 as <- <-. destruct Ha.
    apply list_elem_of_fmap. by exists (x, y2).
  - injection E2 as <- <-. destruct Ha.
    apply list_elem_of_fmap. by exists (x, y1).
  - by apply IH.
Qed.

Lemma loc_elem_Ok df name cells :
  NoDup (columns df) → (name, cells) ∈ series df → loc df name = Ok cells.
Proof.
  intros Hn Hc. destruct (loc df name) as [cells'|e] eqn:E.
  - apply loc_Ok_elem in E. f_equal.
    by apply (NoDup_fst_unique (series df) name).
  - apply loc_Raise in E as [_ E]. destruct E.
    apply list_elem_of_fmap. by exists (name, cells).
Qed.

Lemma well_formed_length df name cells :
  well_formed df → (name, cells) ∈ series df → length cells = nrows df.
Proof.
  intros [_ Hl] Hc. rewrite Forall_forall in Hl. by apply Hl in Hc.
Qed.

Lemma columns_dropna_columns df name :
  name ∈ columns (dropna_columns df) → name ∈ columns df.
Proof.
  intros ([n c] & -> & Hc)%list_elem_of_fmap.
  apply list_elem_of_filter in Hc as [_ Hc].
  apply list_elem_of_fmap. by exists (n, c).
Qed.

Lemma well_formed_dropna_columns df :
  well_formed df → well_formed (dropna_columns df).
Proof.
  intros [Hn Hl]. split.
  - eapply sublist_NoDup; [exact Hn|]. apply fmap_sublist, sublist_filter.
  - apply Forall_forall. intros c [_ Hc]%list_elem_of_filter.
    rewrite Forall_forall in Hl. by apply Hl.
Qed.

Lemma well_formed_joinable df ids :
  well_formed df → well_formed (joinable df ids).
Proof. apply well_formed_select_rows. Qed.

Lemma well_formed_remainder df ids :
  well_formed df → well_formed (remainder df ids).
Proof. apply well_formed_select_rows. Qed.

Lemma compress_notna ids :
  compress (notna ids) ids = filter is_Some ids.
Proof. apply (compress_filter is_Some). Qed.

Lemma all_missing_false cells :
  cells ≠ [] → Forall is_Some cells → all_missing cells = false.
Proof.
  intros Hne Hs. destruct cells as [|c cells]; [done|].
  apply Forall_cons in Hs as [[v ->] _]. done.
Qed.

Lemma all_missing_false_elem cells :
  all_missing cells = false → ∃ v, Some v ∈ cells.
Proof.
  induction cells as [|[v|] cells IH]; simpl; [done| |].
  - intros _. exists v. left.
  - intros H. destruct (IH H) as [v Hv]. exists v. by right.
Qed.

(** The id column of the joinable partition survives the narrowing, and
    every cell of it holds a value. *)
Lemma loc_id_joinable df id_col ids :
  well_formed df → loc df id_col = Ok ids →
  nrows (joinable df ids) ≠ 0%nat →
  loc (dropna_columns (joinable df ids)) id_col = Ok (filter is_Some ids).
Proof.
  intros Hwf Hloc Hrows.
  apply loc_elem_Ok.
  { apply well_formed_dropna_columns, well_formed_joinable, Hwf. }
  apply loc_Ok_elem in Hloc.
  assert ((id_col, filter is_Some ids) ∈ series (joinable df ids)) as Hj.
  { rewrite <- compress_notna. unfold joinable, select_rows. simpl.
    apply list_elem_of_fmap. by exists (id_col, ids). }
  unfold dropna_columns. simpl. apply list_elem_of_filter. split; [|done].
  simpl. apply all_missing_false.
  - intros E. apply Hrows.
    rewrite <- (well_formed_length _ _ _ (well_formed_joinable df ids Hwf) Hj).
    by rewrite E.
  - apply Forall_forall. by intros c [? _]%list_elem_of_filter.
Qed.

End Partitions.

(** ** [pd.merge] and one performed join *)

Section Merge.

Context {value : Type} `{EqDecision value}.
Variable key_order :
  list (@cell value) → list (@cell value) → list pairing → list pairing.
Variable keys_compatible : list (@cell value) → list (@cell value) → bool.

Implicit Types (df left right : @DataFrame value).
Implicit Types (cells ids lk rk : list (@cell value)).

Lemma cell_at_gather cells (ix : list (option nat)) k oi :
  ix !! k = Some oi →
  cell_at (gather cells ix) k
  = match oi with Some i => cell_at cells i | None => None end.
Proof.
  intros E. unfold cell_at at 1, gather. by rewrite list_lookup_fmap, E.
Qed.

Lemma fmap_seq_ext {A B} (f : nat → B) (g : A → B) (l : list A) :
  (∀ k x, l !! k = Some x → f k = g x) →
  f <$> seq 0 (length l) = g <$> l.
Proof.
  intros H. apply list_eq. intros k. rewrite !list_lookup_fmap.
  destruct (l !! k) as [x|] eqn:E; simpl.
  - pose proof (lookup_lt_Some _ _ _ E) as Hk.
    rewrite lookup_seq_lt by done. simpl. f_equal. by apply H.
  - apply lookup_ge_None in E. by rewrite lookup_seq_ge.
Qed.

(** The frame that [pd.merge] builds from the ordered pairs. *)
Lemma pd_merge_Ok left right left_on right_on lk rk :
  loc right right_on = Ok rk → loc left left_on = Ok lk →
  keys_compatible lk rk = true →
  pd_merge key_order keys_compatible left right left_on right_on
  = Ok {| series :=
            ((λ c, (fst c,
                    gather (snd c)
                      (fst <$> key_order lk rk (outer_pairs lk rk))))
               <$> series left) ++
            ((λ c, (fst c,
                    gather (snd c)
                      (snd <$> key_order lk rk (outer_pairs lk rk))))
               <$> series right);
          index :=
            Z.of_nat <$> seq 0 (length (key_order lk rk (outer_pairs lk rk)))
       |}.
Proof.
  intros Hr Hl Hk. unfold pd_merge. rewrite Hr, Hl. simpl. by rewrite Hk.
Qed.

Lemma pd_merge_left_missing left right left_on right_on rk :
  loc right right_on = Ok rk → left_on ∉ columns left →
  pd_merge key_order keys_compatible left right left_on right_on = Raise (KeyError left_on).
Proof.
  intros Hr Hl. unfold pd_merge. rewrite Hr. simpl.
  destruct (loc left left_on) as [lk|e] eqn:E.
  - by apply loc_Ok_columns in E.
  - by apply loc_Raise in E as [-> _].
Qed.

Lemma rows_merged left right (pairs : list pairing) :
  rows {| series :=
            ((λ c, (fst c, gather (snd c) (fst <$> pairs))) <$> series left) ++
            ((λ c, (fst c, gather (snd c) (snd <$> pairs))) <$> series right);
          index := Z.of_nat <$> seq 0 (length pairs) |}
  = glue left right <$> pairs.
Proof.
  unfold rows, nrows. simpl. rewrite length_fmap, length_seq.
  apply fmap_seq_ext. intros k [oi oj] E.
  assert ((fst <$> pairs) !! k = Some oi) as E1
    by (by rewrite list_lookup_fmap, E).
  assert ((snd <$> pairs) !! k = Some oj) as E2
    by (by rewrite list_lookup_fmap, E).
  unfold row_at, glue. simpl. rewrite fmap_app, <- !list_fmap_compose.
  f_equal.
  - destruct oi as [i|]; simpl; apply list_fmap_ext; intros _ c _; simpl;
      by rewrite (cell_at_gather _ _ k _ E1).
  - destruct oj as [j|]; simpl; apply list_fmap_ext; intros _ c _; simpl;
      by rewrite (cell_at_gather _ _ k _ E2).
Qed.

End Merge.

Section Joins.

Context {value : Type} `{EqDecision value}.
Variable key_order :
  list (@cell value) → list (@cell value) → list pairing → list pairing.
Variable keys_compatible : list (@cell value) → list (@cell value) → bool.

Implicit Types (df left right : @DataFrame value).
Implicit Types (cells ids lk rk : list (@cell value)).

Lemma columns_pd_merge left right left_on right_on J :
  pd_merge key_order keys_compatible left right left_on right_on = Ok J →
  columns J = columns left ++ columns right.
Proof.
  unfold pd_merge. destruct (loc right right_on) as [rk|e]; [|done]. simpl.
  destruct (loc left left_on) as [lk|e]; [|done]. simpl.
  destruct (keys_compatible lk rk); [|done].
  intros [= <-]. unfold columns. simpl.
  rewrite fmap_app, <- !list_fmap_compose. done.
Qed.

Lemma nrows_pd_merge left right left_on right_on J :
  pd_merge key_order keys_compatible left right left_on right_on = Ok J →
  Forall (λ c, length (snd c) = nrows J) (series J).
Proof.
  unfold pd_merge. destruct (loc right right_on) as [rk|e]; [|done]. simpl.
  destruct (loc left left_on) as [lk|e]; [|done]. simpl.
  destruct (keys_compatible lk rk); [|done].
  intros [= <-]. unfold nrows. simpl. rewrite length_fmap, length_seq.
  apply Forall_app. split; apply Forall_fmap, Forall_forall; intros c _;
    simpl; unfold gather; by rewrite !length_fmap.
Qed.

Lemma well_formed_pd_merge left right left_on right_on J :
  well_formed left → well_formed right →
  (∀ c, c ∈ columns right → c ∉ columns left) →
  pd_merge key_order keys_compatible left right left_on right_on = Ok J →
  well_formed J.
Proof.
  intros [Hl _] [Hr _] Hd HJ. split.
  - fold (columns J). rewrite (columns_pd_merge _ _ _ _ _ HJ).
    apply NoDup_app. split; [done|]. split; [|done].
    intros c Hc Hc'. by apply (Hd c).
  - by apply nrows_pd_merge in HJ.
Qed.

(** The iteration of [do_joins] when the join goes ahead. *)
Lemma join_step_merge df ref_col id_col ids :
  loc df id_col = Ok ids →
  nrows (joinable df ids) ≠ 0%nat →
  (∀ c, c ∈ columns (dropna_columns (joinable df ids)) →
        c ∉ columns (dropna_columns (remainder df ids))) →
  join_step key_order keys_compatible df ref_col id_col
  = ([InfoJoin id_col ref_col],
     pd_merge key_order keys_compatible (dropna_columns (remainder df ids))
       (dropna_columns (joinable df ids)) ref_col id_col).
Proof.
  intros Hloc Hrows Hd. unfold join_step. rewrite Hloc.
  rewrite (bool_decide_eq_false_2 _ Hrows).
  rewrite bool_decide_eq_false_2; [done|].
  intros (c & Hc & Hc')%overlap_size_pos. by apply (Hd c).
Qed.

(** What an iteration that does not raise leaves as the working table. *)
Lemma join_step_Ok_cases df ref_col id_col log df' :
  join_step key_order keys_compatible df ref_col id_col = (log, Ok df') →
  df' = df ∨
  ∃ ids, loc df id_col = Ok ids ∧
         (∀ c, c ∈ columns (dropna_columns (joinable df ids)) →
               c ∉ columns (dropna_columns (remainder df ids))) ∧
         pd_merge key_order keys_compatible (dropna_columns (remainder df ids))
           (dropna_columns (joinable df ids)) ref_col id_col = Ok df'.
Proof.
  unfold join_step. destruct (loc df id_col) as [ids|e] eqn:Hloc; [|done].
  destruct (bool_decide (nrows (joinable df ids) = 0%nat));
    [intros [= _ <-]; by left|].
  destruct (bool_decide (0 < size _)%nat) eqn:Ho; [intros [= _ <-]; by left|].
  intros [= _ HJ]. right. exists ids. split; [done|]. split; [|done].
  intros c Hc Hc'. apply bool_decide_eq_false in Ho. apply Ho.
  apply overlap_size_pos. eauto.
Qed.

Lemma well_formed_join_step df ref_col id_col log df' :
  well_formed df →
  join_step key_order keys_compatible df ref_col id_col = (log, Ok df') →
  well_formed df'.
Proof.
  intros Hwf [->|(ids & _ & Hd & HJ)]%join_step_Ok_cases; [done|].
  eapply well_formed_pd_merge; [| |exact Hd|exact HJ].
  - by apply well_formed_dropna_columns, well_formed_remainder.
  - by apply well_formed_dropna_columns, well_formed_joinable.
Qed.

Lemma well_formed_do_joins df mappings log df' :
  well_formed df →
  do_joins key_order keys_compatible df mappings = (log, Ok df') →
  well_formed df'.
Proof.
  revert df log. induction mappings as [|[ref_col id_col] rest IH];
    intros df log Hwf; simpl.
  - by intros [= _ <-].
  - destruct (join_step key_order keys_compatible df ref_col id_col) as [log1 [df1|e]] eqn:E;
      [|done].
    destruct (do_joins key_order keys_compatible df1 rest) as [log2 r] eqn:E2.
    intros [= _ ->]. eapply IH; [|exact E2].
    by eapply well_formed_join_step.
Qed.

(** X10.  When the referencing column holds no value in the remainder, the
    narrowing drops it and [pd.merge] raises [KeyError]. *)
Lemma join_step_ref_dropped df ref_col id_col ids :
  well_formed df →
  loc df id_col = Ok ids →
  nrows (joinable df ids) ≠ 0%nat →
  (∀ c, c ∈ columns (dropna_columns (joinable df ids)) →
        c ∉ columns (dropna_columns (remainder df ids))) →
  ref_col ∉ columns (dropna_columns (remainder df ids)) →
  join_step key_order keys_compatible df ref_col id_col
  = ([InfoJoin id_col ref_col], Raise (KeyError ref_col)).
Proof.
  intros Hwf Hloc Hrows Hd Href.
  rewrite (join_step_merge _ _ _ _ Hloc Hrows Hd). f_equal.
  eapply pd_merge_left_missing; [|done].
  by apply loc_id_joinable.
Qed.

End Joins.

(** ** [merge_rows]: restoring and reordering the columns *)

Section Restore.

Context {value : Type} `{EqDecision value}.

Implicit Types (df w : @DataFrame value).

Lemma insert_all df (l : list str) :
  NoDup l → (∀ c, c ∈ l → c ∉ columns df) →
  foldl (λ r col, d ← r; df_insert d col) (Ok df) l
  = Ok {| series := ((λ c, (c, replicate (nrows df) None)) <$> reverse l)
                    ++ series df;
          index := index df |}.
Proof.
  revert df. induction l as [|c l IH]; intros df Hn Hc.
  - simpl. by destruct df.
  - apply NoDup_cons in Hn as [Hcl Hn]. simpl. unfold df_insert at 2.
    rewrite bool_decide_eq_false_2 by (apply Hc; left).
    rewrite IH; [|done|].
    + f_equal. unfold nrows. simpl. f_equal.
      rewrite reverse_cons, fmap_app, <- app_assoc. done.
    + intros c' Hc'. unfold columns. simpl.
      intros [->|H']%elem_of_cons; [done|].
      apply (Hc c'); [by right | done].
Qed.

Lemma restore_columns_Ok df_in w :
  restore_columns df_in w
  = Ok {| series :=
            ((λ c, (c, replicate (nrows w) None)) <$>
               reverse (elements (list_to_set (columns df_in)
                                  ∖ list_to_set (columns w) : gset str)))
            ++ series w;
          index := index w |}.
Proof.
  unfold restore_columns. apply insert_all.
  - apply NoDup_elements.
  - intros c Hc. apply elem_of_elements in Hc. set_solver.
Qed.

Lemma named_absent df name : name ∉ columns df → named df name = [].
Proof.
  unfold named, columns. induction (series df) as [|[n c] l IH]; [done|].
  rewrite fmap_cons, not_elem_of_cons. simpl. intros [Hne Hl].
  rewrite filter_cons_False by (simpl; congruence). by apply IH.
Qed.

Lemma named_unique df name cells :
  NoDup (columns df) → (name, cells) ∈ series df →
  named df name = [(name, cells)].
Proof.
  unfold named, columns. induction (series df) as [|[n c] l IH];
    [by intros _ ?%elem_of_nil|].
  rewrite fmap_cons. intros [Hn Hl]%NoDup_cons Hc. simpl in Hn.
  apply elem_of_cons in Hc as [[= <- <-]|Hc].
  - rewrite filter_cons_True by done. f_equal.
    by apply (named_absent {| series := l; index := [] |}).
  - rewrite filter_cons_False; [by apply IH|]. simpl. intros ->.
    apply Hn, list_elem_of_fmap. by exists (name, cells).
Qed.

Lemma getitem_series_Ok df names :
  NoDup (columns df) → (∀ n, n ∈ names → n ∈ columns df) →
  ∃ cs, getitem_series df names = Ok cs ∧ fst <$> cs = names ∧
        ∀ c, c ∈ cs → c ∈ series df.
Proof.
  intros Hn. induction names as [|name names IH]; intros Hin.
  - exists []. split; [done|]. split; [done|]. by intros c ?%elem_of_nil.
  - destruct IH as (cs & Hcs & Hf & Hs); [intros n ?; apply Hin; by right|].
    destruct (loc_columns df name) as [cells Hc]; [apply Hin; left|].
    apply loc_Ok_elem in Hc. exists ((name, cells) :: cs). simpl.
    rewrite (named_unique df name cells Hn Hc), Hcs. simpl.
    split; [done|]. split; [f_equal; exact Hf|].
    intros c [->|?]%elem_of_cons; auto.
Qed.

End Restore.

Section MergeRowsColumns.

Context {value : Type} `{EqDecision value}.
Variable key_order :
  list (@cell value) → list (@cell value) → list pairing → list pairing.
Variable keys_compatible : list (@cell value) → list (@cell value) → bool.
Variable uni_alnum : char → bool.
Variable uni_space : char → bool.

Abbreviation merge_rows' := (merge_rows key_order keys_compatible uni_alnum uni_space).
Abbreviation joins_of df :=
  (do_joins key_order keys_compatible (dropna_rows df)
     (discover_mappings uni_alnum uni_space (columns df))).

(** After the joins, the missing columns are put back and the columns are
    selected in the order of the input. *)
Lemma restore_and_reorder (df w : @DataFrame value) :
  well_formed df → well_formed w →
  ∃ out,
    (d ← restore_columns df w; getitem d (columns df)) = Ok out ∧
    columns out = columns df ∧
    index out = index w ∧
    ∀ name, name ∈ columns df →
      (name ∈ columns w → loc out name = loc w name) ∧
      (name ∉ columns w → loc out name = Ok (replicate (nrows w) None)).
Proof.
  intros [Hdf _] [Hw _]. rewrite restore_columns_Ok. simpl.
  set (missing := elements (list_to_set (columns df)
                            ∖ list_to_set (columns w) : gset str)).
  set (r := {| series := ((λ c, (c, replicate (nrows w) None))
                            <$> reverse missing) ++ series w;
               index := index w |}).
  assert (columns r = reverse missing ++ columns w) as Hcr.
  { unfold columns, r. simpl. rewrite fmap_app, <- list_fmap_compose.
    f_equal. by rewrite list_fmap_id. }
  assert (∀ c, c ∈ missing ↔ c ∈ columns df ∧ c ∉ columns w) as Hmiss.
  { intros c. unfold missing. rewrite elem_of_elements. set_solver. }
  assert (NoDup (columns r)) as Hnr.
  { rewrite Hcr. apply NoDup_app. split; [|split; [|done]].
    - rewrite reverse_Permutation. apply NoDup_elements.
    - intros c Hc. rewrite elem_of_reverse in Hc.
      by apply Hmiss in Hc as [_ ?]. }
  destruct (getitem_series_Ok r (columns df) Hnr) as (cs & Hcs & Hf & Hs).
  { intros n Hn. rewrite Hcr, elem_of_app, elem_of_reverse, Hmiss.
    destruct (decide (n ∈ columns w)); auto. }
  exists {| series := cs; index := index w |}.
  split; [unfold getitem; by rewrite Hcs|]. split; [done|]. split; [done|].
  intros name Hname.
  assert (∃ cells, loc {| series := cs; index := index w |} name = Ok cells)
    as [cells Hloc].
  { apply loc_columns. unfold columns. simpl. by rewrite Hf. }
  rewrite Hloc. pose proof (Hs _ (loc_Ok_elem _ _ _ Hloc)) as Hr.
  split.
  - intros [cells' Hw']%loc_columns. rewrite Hw'. f_equal.
    apply (NoDup_fst_unique (series r) name); [done..|].
    unfold r. simpl. apply elem_of_app. right. by apply loc_Ok_elem.
  - intros Hnw. f_equal.
    apply (NoDup_fst_unique (series r) name); [done..|].
    unfold r. simpl. apply elem_of_app. left.
    apply list_elem_of_fmap. exists name. split; [done|].
    apply elem_of_reverse, Hmiss. done.
Qed.

(** C2.  Whatever the joins did, the table returned by [merge_rows] has
    the column names of the input in the order of the input; a column
    that the joins dropped comes back entirely missing, the others keep
    the cells the joins gave them; the restoration itself never fails. *)
Theorem merge_rows_columns (df : @DataFrame value) :
  well_formed df →
  (∀ log out, merge_rows' df = (log, Ok out) → columns out = columns df) ∧
  (∀ log e, merge_rows' df = (log, Raise e) →
            joins_of df = (log, Raise e)) ∧
  (∀ log w,
     nrows (dropna_rows df) ≠ 0%nat →
     discover_mappings uni_alnum uni_space (columns df) ≠ [] →
     joins_of df = (log, Ok w) →
     ∃ out,
       merge_rows' df = (log, Ok out) ∧
       columns out = columns df ∧
       index out = index w ∧
       ∀ name, name ∈ columns df →
         (name ∈ columns w → loc out name = loc w name) ∧
         (name ∉ columns w → loc out name = Ok (replicate (nrows w) None))).
Proof.
  intros Hwf.
  assert (well_formed (dropna_rows df)) as Hwfd
    by (by apply well_formed_select_rows).
  unfold merge_rows. rewrite columns_dropna_rows.
  destruct (decide (nrows (dropna_rows df) = 0%nat)) as [E|E].
  { rewrite (bool_decide_eq_true_2 _ E). split; [|split]; [|done..].
    intros log out [= _ <-]. apply columns_dropna_rows. }
  rewrite (bool_decide_eq_false_2 _ E).
  destruct (discover_mappings uni_alnum uni_space (columns df))
    as [|m ms] eqn:Em.
  { simpl. split; [|split]; [|done..].
    intros log out [= _ <-]. apply columns_dropna_rows. }
  rewrite bool_decide_eq_false_2 by done.
  destruct (do_joins key_order keys_compatible (dropna_rows df) (m :: ms))
    as [log0 [w0|e0]] eqn:Ej.
  - pose proof (well_formed_do_joins _ _ _ _ _ _ Hwfd Ej) as Hw0.
    destruct (restore_and_reorder df w0 Hwf Hw0) as (out & Ho & Hc & Hi & Hl).
    rewrite Ho. split; [|split].
    + by intros log out' [= _ <-].
    + done.
    + intros log w _ _ [= <- <-]. by exists out.
  - split; [done|]. split; [|done]. by intros log e [= <- <-].
Qed.

End MergeRowsColumns.

(** ** The tests of the repository on [discover_mappings]

    They hold whatever the classification of the code points from U+0080
    on. *)

Section RepositoryTests.

Variable uni_alnum : char → bool.
Variable uni_space : char → bool.

Abbreviation discover := (discover_mappings uni_alnum uni_space).

Example test_discover_mappings_no_matches :
  discover [] = [] ∧
  discover [py ""] = [] ∧
  discover [py "."; py ".."; py "..."] = [] ∧
  discover [py "foo.id"; py "barfoo.id"] = [] ∧
  discover [py "a.b.c"; py "d.e"; py "f"; py "ostrich";
            py "something.with.id.in.the.middle"; py "with.id"] = [] ∧
  discover [[28450; 23383]%N; [127880; 46; 105; 100]%N] = [].
Proof. repeat split; vm_compute; reflexivity. Qed.

Example test_discover_mappings_at :
  discover [py "foo.@id"; py "bar.foo.@id"; py "spam.and.eggs.and.spam";
            py "thing.@id"; py "some.thing.@id"]
  = [(py "bar.foo.@id", py "foo.@id"); (py "some.thing.@id", py "thing.@id")].
Proof. vm_compute. reflexivity. Qed.

Example test_discover_mappings_no_at :
  discover [py "foo.id"; py "bar.foo.id"; py "spam.and.eggs.and.spam";
            py "thing.id"; py "some.thing.id"]
  = [(py "bar.foo.id", py "foo.id"); (py "some.thing.id", py "thing.id")].
Proof. vm_compute. reflexivity. Qed.

Example test_discover_mappings_multiple_matches :
  discover [py "foo.id"; py "bar.foo.id"; py "baz.foo.id"]
  = [(py "bar.foo.id", py "foo.id")].
Proof. vm_compute. reflexivity. Qed.

End RepositoryTests.

(** ** The properties on the sample tables *)

Ltac by_compute :=
  match goal with
  | |- ?P => refine (@bool_decide_unpack P _ _); vm_compute; exact I
  end.

Lemma well_formed_cycles_and_sites : well_formed cycles_and_sites.
Proof. unfold well_formed. by_compute. Defined.

Lemma well_formed_shared_column : well_formed shared_column.
Proof. unfold well_formed. by_compute. Defined.

Lemma well_formed_only_dashes : well_formed only_dashes.
Proof. unfold well_formed. by_compute. Defined.

Lemma do_joins_overlap_skips_witness :
  loc shared_column (py "site.id") = Ok [None; Some 10%nat] ∧
  nrows (joinable shared_column [None; Some 10%nat]) ≠ 0%nat ∧
  ∃ overlap : gset str,
    (∀ c, c ∈ overlap ↔
          c ∈ columns (dropna_columns
                         (joinable shared_column [None; Some 10%nat])) ∧
          c ∈ columns (dropna_columns
                         (remainder shared_column [None; Some 10%nat]))) ∧
    join_step input_order any_keys shared_column (py "cycle.site.id") (py "site.id")
    = ([WarnOverlap (py "site.id") overlap], Ok shared_column) ∧
    do_joins input_order any_keys shared_column [(py "cycle.site.id", py "site.id")]
    = (WarnOverlap (py "site.id") overlap
         :: fst (do_joins input_order any_keys shared_column []),
       snd (do_joins input_order any_keys shared_column [])).
Proof.
  assert (loc shared_column (py "site.id") = Ok [None; Some 10%nat]) as H1
    by (vm_compute; reflexivity).
  assert (nrows (joinable shared_column [None; Some 10%nat]) ≠ 0%nat) as H2
    by by_compute.
  assert (∃ c,
            c ∈ columns (dropna_columns
                           (joinable shared_column [None; Some 10%nat])) ∧
            c ∈ columns (dropna_columns
                           (remainder shared_column [None; Some 10%nat])))
    as H3 by (exists (py "name"); split; by_compute).
  split; [exact H1|]. split; [exact H2|].
  exact (do_joins_overlap_skips input_order any_keys shared_column
           (py "cycle.site.id") (py "site.id") _ [] H1 H2 H3).
Defined.

Lemma merge_rows_columns_witness :
  well_formed cycles_and_sites ∧
  ∃ log out,
    merge_rows input_order any_keys ascii_only ascii_only cycles_and_sites
    = (log, Ok out) ∧
    columns out = columns cycles_and_sites ∧
    loc out (py "site.note") = Ok [None; None; None].
Proof.
  split; [exact well_formed_cycles_and_sites|].
  eexists _, _. split; [vm_compute; reflexivity|]. split.
  - eapply (proj1 (merge_rows_columns input_order any_keys ascii_only ascii_only
                     cycles_and_sites well_formed_cycles_and_sites)).
    vm_compute. reflexivity.
  - vm_compute. reflexivity.
Defined.

Lemma merge_rows_drops_empty_rows_witness :
  well_formed only_dashes ∧
  merge_rows input_order any_keys ascii_only ascii_only only_dashes
  = ([], Ok (dropna_rows only_dashes)) ∧
  rows (dropna_rows only_dashes) = [] ∧
  columns (dropna_rows only_dashes) = columns only_dashes.
Proof.
  split; [exact well_formed_only_dashes|].
  destruct (merge_rows_drops_empty_rows input_order any_keys ascii_only ascii_only
              only_dashes well_formed_only_dashes)
    as (_ & _ & Hc & _ & Hall).
  destruct Hall as [Hm Hr].
  { apply Forall_forall. unfold empty_row. by_compute. }
  split; [exact Hm|]. split; [exact Hr | exact Hc].
Defined.

Lemma merge_rows_no_mappings_witness :
  discover_mappings ascii_only ascii_only (columns no_identifiers) = [] ∧
  ∃ log,
    merge_rows input_order any_keys ascii_only ascii_only no_identifiers
    = (log, Ok (dropna_rows no_identifiers)) ∧
    (nrows (dropna_rows no_identifiers) ≠ 0%nat → log = [WarnNoJoins]) ∧
    (∀ e, e ∈ log → e = WarnNoJoins) ∧
    rows (dropna_rows no_identifiers)
    = filter (λ r, ¬ empty_row r) (rows no_identifiers) ∧
    columns (dropna_rows no_identifiers) = columns no_identifiers.
Proof.
  assert (discover_mappings ascii_only ascii_only (columns no_identifiers)
          = []) as H by (vm_compute; reflexivity).
  split; [exact H|].
  exact (merge_rows_no_mappings input_order any_keys ascii_only ascii_only
           no_identifiers H).
Defined.

(** The outer join on the first sample table: the site referred to twice
    is merged into both cycles, the other site is kept on its own. *)
Example join_cycles_and_sites :
  ∃ out,
    merge_rows input_order any_keys ascii_only ascii_only cycles_and_sites
    = ([InfoJoin (py "site.id") (py "cycle.site.id")], Ok out) ∧
    columns out = columns cycles_and_sites ∧
    rows out = [ [Some 1; None; Some 10; Some 10; Some 100];
                 [Some 2; None; Some 10; Some 10; Some 100];
                 [None; None; None; Some 11; Some 101] ]%nat.
Proof.
  eexists. split; [vm_compute; reflexivity|].
  split; vm_compute; reflexivity.
Qed.

(** C3.  On a cycle that refers to no site and a site, the joinable
    partition is not empty and the narrowed partitions share no column,
    so the join goes ahead; the narrowing has dropped the referencing
    column from the remainder, [pd.merge] raises [KeyError], and neither
    unmatched row reaches any result. *)
Theorem outer_join_unreferenced_site_raises
    (key_order : list (@cell nat) → list (@cell nat) →
                 list pairing → list pairing)
    (keys_compatible : list (@cell nat) → list (@cell nat) → bool)
    (uni_alnum uni_space : char → bool) :
  discover_mappings uni_alnum uni_space (columns unreferenced_site)
  = [(py "cycle.site.id", py "site.id")] ∧
  loc unreferenced_site (py "site.id") = Ok [None; Some 10%nat] ∧
  rows (joinable unreferenced_site [None; Some 10%nat])
  = [[None; None; Some 10%nat]] ∧
  rows (remainder unreferenced_site [None; Some 10%nat])
  = [[Some 1%nat; None; None]] ∧
  columns (dropna_columns (joinable unreferenced_site [None; Some 10%nat]))
  = [py "site.id"] ∧
  columns (dropna_columns (remainder unreferenced_site [None; Some 10%nat]))
  = [py "cycle.id"] ∧
  join_step key_order keys_compatible unreferenced_site (py "cycle.site.id") (py "site.id")
  = ([InfoJoin (py "site.id") (py "cycle.site.id")],
     Raise (KeyError (py "cycle.site.id"))) ∧
  merge_rows key_order keys_compatible uni_alnum uni_space unreferenced_site
  = ([InfoJoin (py "site.id") (py "cycle.site.id")],
     Raise (KeyError (py "cycle.site.id"))).
Proof. repeat split; vm_compute; reflexivity. Qed.

(** * Further properties of the code *)

(** ** The offset and the suffix of [discover_mappings] *)

Lemma rfind_scan_absent c s i lo hi acc :
  c ∉ s → rfind_scan c s i lo hi acc = acc.
Proof.
  revert i acc. induction s as [|x s IH]; intros i acc Hc; simpl; [done|].
  apply not_elem_of_cons in Hc as [Hx Hs].
  assert ((x =? c)%N = false) as -> by (apply N.eqb_neq; congruence).
  simpl. by apply IH.
Qed.

Lemma rfind_scan_app c s1 s2 i lo hi acc :
  rfind_scan c (s1 ++ s2) i lo hi acc
  = rfind_scan c s2 (i + Z.of_nat (length s1)) lo hi
      (rfind_scan c s1 i lo hi acc).
Proof.
  revert i acc. induction s1 as [|x s1 IH]; intros i acc; simpl.
  - by rewrite Z.add_0_r.
  - rewrite IH. f_equal. lia.
Qed.

Lemma rfind_scan_hit c s i lo hi acc :
  lo ≤ i < hi →
  rfind_scan c (c :: s) i lo hi acc = rfind_scan c s (i + 1) lo hi i.
Proof.
  intros [H1 H2]. simpl. rewrite N.eqb_refl.
  by rewrite (proj2 (Z.leb_le _ _) H1), (proj2 (Z.ltb_lt _ _) H2).
Qed.

Lemma rfind_scan_outside c x s i lo hi acc :
  hi ≤ i →
  rfind_scan c (x :: s) i lo hi acc = rfind_scan c s (i + 1) lo hi acc.
Proof.
  intros H. simpl. rewrite (proj2 (Z.ltb_ge _ _) H).
  by rewrite andb_false_r.
Qed.

Lemma slice_bound_id len i : 0 ≤ i ≤ len → slice_bound len i = i.
Proof.
  intros H. unfold slice_bound. rewrite (proj2 (Z.ltb_ge _ _)) by lia. lia.
Qed.

(** [s.rfind(".")] is the position of the last dot. *)
Lemma rfind_all_last a t :
  DOT ∉ t → rfind_all DOT (a ++ DOT :: t) = Z.of_nat (length a).
Proof.
  intros Ht. unfold rfind_all, rfind. rewrite !slice_bound_id by lia.
  rewrite rfind_scan_app, Z.add_0_l, rfind_scan_hit.
  - by apply rfind_scan_absent.
  - rewrite length_app. simpl. lia.
Qed.

(** X1.  In a name with at least two dots the offset is the position of
    the second-to-last dot and the suffix is the text after that dot. *)
Theorem second_last_dot_two_dots (col a b c : str) :
  col = a ++ DOT :: b ++ DOT :: c → DOT ∉ b → DOT ∉ c →
  second_last_dot col = Z.of_nat (length a) ∧
  suffix_of col = b ++ DOT :: c.
Proof.
  intros -> Hb Hc.
  assert (second_last_dot (a ++ DOT :: b ++ DOT :: c) = Z.of_nat (length a))
    as Hoff.
  { unfold second_last_dot.
    replace (a ++ DOT :: b ++ DOT :: c) with ((a ++ DOT :: b) ++ DOT :: c)
      at 2 by (by rewrite <- app_assoc).
    rewrite (rfind_all_last _ c Hc).
    unfold rfind. rewrite !length_app. simpl. rewrite length_app. simpl.
    rewrite !slice_bound_id by lia.
    rewrite rfind_scan_app, Z.add_0_l, rfind_scan_hit by lia.
    rewrite rfind_scan_app, (rfind_scan_absent _ b) by done.
    rewrite rfind_scan_outside by lia.
    by apply rfind_scan_absent. }
  split; [done|].
  unfold suffix_of, slice_from. rewrite Hoff.
  rewrite slice_bound_id by (rewrite length_app; simpl; lia).
  replace (Z.to_nat (Z.of_nat (length a) + 1)) with (length (a ++ [DOT]))
    by (rewrite length_app; simpl; lia).
  replace (a ++ DOT :: b ++ DOT :: c) with ((a ++ [DOT]) ++ b ++ DOT :: c)
    by (by rewrite <- app_assoc).
  by rewrite drop_app_length.
Qed.

Lemma second_last_dot_two_dots_witness :
  py "bar.foo.id" = py "bar" ++ DOT :: py "foo" ++ DOT :: py "id" ∧
  second_last_dot (py "bar.foo.id") = 3 ∧
  suffix_of (py "bar.foo.id") = py "foo" ++ DOT :: py "id".
Proof.
  split; [reflexivity|].
  apply (second_last_dot_two_dots (py "bar.foo.id")
           (py "bar") (py "foo") (py "id")).
  - reflexivity.
  - by_compute.
  - by_compute.
Defined.

Lemma second_last_dot_one_dot a c :
  DOT ∉ a → DOT ∉ c → second_last_dot (a ++ DOT :: c) = -1.
Proof.
  intros Ha Hc. unfold second_last_dot. rewrite (rfind_all_last a c Hc).
  unfold rfind. rewrite length_app. simpl.
  rewrite !slice_bound_id by lia.
  rewrite rfind_scan_app, (rfind_scan_absent _ a) by done.
  rewrite rfind_scan_outside by lia. by apply rfind_scan_absent.
Qed.

Lemma dots_none (s : list char) :
  length (filter (λ x, x = DOT) s) = 0%nat → DOT ∉ s.
Proof.
  intros E Hd. apply nil_length_inv in E.
  assert (DOT ∈ filter (λ x, x = DOT) s) as H
    by (by apply list_elem_of_filter).
  rewrite E in H. by apply elem_of_nil in H.
Qed.

Lemma dots_one (s : list char) :
  length (filter (λ x, x = DOT) s) = 1%nat →
  ∃ a c, s = a ++ DOT :: c ∧ (DOT ∉ a) ∧ (DOT ∉ c).
Proof.
  intros E.
  assert (DOT ∈ s) as Hd.
  { destruct (filter (λ x, x = DOT) s) as [|x l] eqn:Ef; [done|].
    assert (x ∈ filter (λ x, x = DOT) s) as Hx by (rewrite Ef; left).
    by apply list_elem_of_filter in Hx as [-> ?]. }
  apply list_elem_of_split in Hd as (a & c & ->). unfold str in *.
  rewrite filter_app, filter_cons_True, length_app in E by done.
  simpl in E. exists a, c. split; [done|].
  split; apply dots_none; lia.
Qed.

(** X2.  A name with fewer than two dots has offset [-1], its suffix is
    the whole name, and it is never the referencing column of a mapping. *)
Theorem second_last_dot_few_dots
    (uni_alnum uni_space : char → bool) (col : str) (columns : list str) :
  (length (filter (λ x, x = DOT) col) < 2)%nat →
  second_last_dot col = -1 ∧
  suffix_of col = col ∧
  col ∉ fst <$> discover_mappings uni_alnum uni_space columns.
Proof.
  intros Hlt. unfold str in *.
  assert (second_last_dot col = -1) as Hoff.
  { destruct (length (filter (λ x, x = DOT) col)) as [|[|n]] eqn:E; [| |lia].
    - by apply second_last_dot_no_dot, dots_none.
    - apply dots_one in E as (a & c & -> & Ha & Hc).
      by apply second_last_dot_one_dot. }
  split; [done|]. split.
  - unfold suffix_of, slice_from. rewrite Hoff. simpl.
    unfold slice_bound. simpl. by rewrite Z.min_l by lia.
  - intros ([ref idx] & E & H)%list_elem_of_fmap. simpl in E. subst ref.
    rewrite discover_mappings_emitted in H.
    apply emitted_refers in H as (_ & _ & [Ho _]). lia.
Qed.

Lemma second_last_dot_few_dots_witness :
  (length (filter (λ x, x = DOT) (py "barfoo.id")) < 2)%nat ∧
  second_last_dot (py "barfoo.id") = -1 ∧
  suffix_of (py "barfoo.id") = py "barfoo.id" ∧
  (py "barfoo.id"
     ∉ fst <$> discover_mappings ascii_only ascii_only
                 [py "foo.id"; py "barfoo.id"]).
Proof.
  assert (length (filter (λ x, x = DOT) (py "barfoo.id")) < 2)%nat as H
    by by_compute.
  split; [exact H|].
  exact (second_last_dot_few_dots ascii_only ascii_only (py "barfoo.id")
           [py "foo.id"; py "barfoo.id"] H).
Defined.

(** ** More on [discover_mappings] *)

Section DiscoveryMore.

Variable uni_alnum : char → bool.
Variable uni_space : char → bool.

Abbreviation is_index_col_ := (is_index_col uni_alnum uni_space).
Abbreviation collect_ := (collect_index_cols uni_alnum uni_space).
Abbreviation discover_ := (discover_mappings uni_alnum uni_space).

Lemma lstrip_split s :
  ∃ k, s = k ++ lstrip uni_space s ∧
       Forall (λ c, is_space uni_space c = true) k.
Proof.
  induction s as [|c s (k & IH & Hk)]; simpl.
  - by exists [].
  - destruct (is_space uni_space c) eqn:Ec.
    + exists (c :: k). split; [simpl; by f_equal | by constructor].
    + by exists [].
Qed.

Lemma strip_split s :
  ∃ k1 k2, s = k1 ++ strip uni_space s ++ k2 ∧
           Forall (λ c, is_space uni_space c = true) k1 ∧
           Forall (λ c, is_space uni_space c = true) k2.
Proof.
  destruct (lstrip_split s) as (k1 & E1 & H1).
  destruct (lstrip_split (reverse (lstrip uni_space s))) as (k2 & E2 & H2).
  exists k1, (reverse k2). split; [|split; [done|]].
  - rewrite E1 at 1. f_equal. unfold strip.
    rewrite <- reverse_app, <- E2. by rewrite reverse_involutive.
  - by apply Forall_reverse.
Qed.

Lemma not_dot_space k :
  Forall (λ c, is_space uni_space c = true) k → DOT ∉ k.
Proof.
  intros H Hd. rewrite Forall_forall in H. apply H in Hd. by vm_compute in Hd.
Qed.

Lemma not_dot_word k :
  Forall (λ c, is_word uni_alnum c = true) k → DOT ∉ k.
Proof.
  intros H Hd. rewrite Forall_forall in H. apply H in Hd. by vm_compute in Hd.
Qed.

(** An index column has a single dot, so its offset is [-1]. *)
Lemma index_col_offset col :
  is_index_col_ col = true → second_last_dot col = -1.
Proof.
  intros (label & marker & E & _ & Hl & Hm)%is_index_col_spec.
  destruct (strip_split col) as (k1 & k2 & Ec & H1 & H2).
  rewrite E in Ec. rewrite Ec.
  replace (k1 ++ (label ++ DOT :: marker) ++ k2)
    with ((k1 ++ label) ++ DOT :: (marker ++ k2))
    by (by rewrite <- !app_assoc).
  apply second_last_dot_one_dot.
  - rewrite not_elem_of_app. split; [by apply not_dot_space|].
    by apply not_dot_word.
  - rewrite not_elem_of_app. split; [|by apply not_dot_space].
    destruct Hm as [-> | ->]; by_compute.
Qed.

Lemma emitted_complete index_cols columns idx c :
  idx ∈ index_cols → c ∈ columns → refers_to c idx →
  idx ∈ snd <$> emitted index_cols columns.
Proof.
  revert index_cols. induction columns as [|col columns IH];
    intros ic Hidx Hc Href; [by apply elem_of_nil in Hc|].
  destruct (emitted_cons_cases ic col columns) as [(H1 & H2 & ->)|[Hn ->]].
  - rewrite fmap_cons. simpl.
    destruct (decide (suffix_of col = idx)) as [->|Hne]; [left|].
    right. apply IH; [set_solver| |done].
    apply elem_of_cons in Hc as [->|Hc]; [|done].
    by destruct Href as [_ ?].
  - apply IH; [done| |done].
    apply elem_of_cons in Hc as [->|Hc]; [|done].
    destruct Href as [Ho <-]. by destruct Hn.
Qed.

(** X3.  The join targets of the result are exactly the index columns of
    the input that some input column refers to. *)
Theorem discover_mappings_targets (columns : list str) (idx : str) :
  idx ∈ snd <$> discover_ columns ↔
  idx ∈ collect_ columns ∧ ∃ c, c ∈ columns ∧ refers_to c idx.
Proof.
  rewrite discover_mappings_emitted. split.
  - intros ([ref i] & E & H)%list_elem_of_fmap. simpl in E. subst i.
    apply emitted_refers in H as (Hr & Hi & Href). eauto.
  - intros (Hi & c & Hc & Href). by apply (emitted_complete _ _ _ c).
Qed.

(** X4.  The referencing column of a mapping is never an index column,
    so no column is the source of one mapping and the target of another. *)
Theorem discover_mappings_sources_not_targets
    (columns : list str) (ref idx : str) :
  (ref, idx) ∈ discover_ columns →
  is_index_col_ ref = false ∧
  (ref ∉ snd <$> discover_ columns) ∧
  (idx ∉ fst <$> discover_ columns).
Proof.
  intros H. rewrite discover_mappings_emitted in H.
  pose proof (emitted_refers _ _ _ _ H) as (_ & Hidx & [Ho _]).
  assert (is_index_col_ ref = false) as Hnot.
  { destruct (is_index_col_ ref) eqn:E; [|done].
    apply index_col_offset in E. lia. }
  split; [done|]. split.
  - intros ([r i] & E & H')%list_elem_of_fmap. simpl in E. subst i.
    rewrite discover_mappings_emitted in H'.
    apply emitted_refers in H' as (_ & Hi & _).
    apply elem_of_collect_index_cols in Hi as [_ Hi]. congruence.
  - intros ([r i] & E & H')%list_elem_of_fmap. simpl in E. subst r.
    rewrite discover_mappings_emitted in H'.
    apply emitted_refers in H' as (_ & _ & [Ho' _]).
    apply elem_of_collect_index_cols in Hidx as [_ Hidx].
    apply index_col_offset in Hidx. lia.
Qed.

(** X5.  Both names of every mapping are column names of the input. *)
Theorem discover_mappings_names_in_header
    (columns : list str) (ref idx : str) :
  (ref, idx) ∈ discover_ columns → ref ∈ columns ∧ idx ∈ columns.
Proof.
  intros H. rewrite discover_mappings_emitted in H.
  apply emitted_refers in H as (Hr & Hi & _). split; [done|].
  by apply elem_of_collect_index_cols in Hi as [? _].
Qed.

End DiscoveryMore.

Lemma discover_mappings_sources_not_targets_witness :
  (py "a.b.id", py "b.id")
    ∈ discover_mappings ascii_only ascii_only
        [py "a.b.id"; py "b.id"; py "b.c.id"; py "c.id"] ∧
  is_index_col ascii_only ascii_only (py "a.b.id") = false ∧
  (py "a.b.id" ∉ snd <$> discover_mappings ascii_only ascii_only
                          [py "a.b.id"; py "b.id"; py "b.c.id"; py "c.id"]) ∧
  (py "b.id" ∉ fst <$> discover_mappings ascii_only ascii_only
                        [py "a.b.id"; py "b.id"; py "b.c.id"; py "c.id"]).
Proof.
  assert ((py "a.b.id", py "b.id")
            ∈ discover_mappings ascii_only ascii_only
                [py "a.b.id"; py "b.id"; py "b.c.id"; py "c.id"]) as H
    by by_compute.
  split; [exact H|].
  exact (discover_mappings_sources_not_targets ascii_only ascii_only _ _ _ H).
Defined.

Lemma discover_mappings_names_in_header_witness :
  (py "b.c.id", py "c.id")
    ∈ discover_mappings ascii_only ascii_only
        [py "a.b.id"; py "b.id"; py "b.c.id"; py "c.id"] ∧
  py "b.c.id" ∈ [py "a.b.id"; py "b.id"; py "b.c.id"; py "c.id"] ∧
  py "c.id" ∈ [py "a.b.id"; py "b.id"; py "b.c.id"; py "c.id"].
Proof.
  assert ((py "b.c.id", py "c.id")
            ∈ discover_mappings ascii_only ascii_only
                [py "a.b.id"; py "b.id"; py "b.c.id"; py "c.id"]) as H
    by by_compute.
  split; [exact H|].
  exact (discover_mappings_names_in_header ascii_only ascii_only _ _ _ H).
Defined.

(** ** More on one iteration of [do_joins] *)

Section StepMore.

Context {value : Type} `{EqDecision value}.
Variable key_order :
  list (@cell value) → list (@cell value) → list pairing → list pairing.
Variable keys_compatible : list (@cell value) → list (@cell value) → bool.

Implicit Types (df J : @DataFrame value).
Implicit Types (cells ids : list (@cell value)).

Lemma compress_none {A} mask (l : list A) :
  Forall (λ b, b = false) mask → compress mask l = [].
Proof.
  revert l. induction mask as [|b mask IH]; intros [|x l] H; simpl; try done.
  apply Forall_cons in H as [-> H]. by apply IH.
Qed.

Lemma notna_all_missing ids :
  Forall (λ c, c = None) ids → Forall (λ b, b = false) (notna ids).
Proof.
  intros H. unfold notna. apply Forall_fmap.
  eapply Forall_impl; [exact H|]. by intros c ->.
Qed.

Lemma do_joins_cons_skip df ref_col id_col rest :
  join_step key_order keys_compatible df ref_col id_col = ([], Ok df) →
  do_joins key_order keys_compatible df ((ref_col, id_col) :: rest)
  = do_joins key_order keys_compatible df rest.
Proof.
  intros E. simpl. rewrite E. by destruct (do_joins key_order keys_compatible df rest).
Qed.

Lemma join_step_skip df ref_col id_col ids :
  loc df id_col = Ok ids →
  Forall (λ c, c = None) ids →
  join_step key_order keys_compatible df ref_col id_col = ([], Ok df).
Proof.
  intros Hloc Hall. unfold join_step. rewrite Hloc.
  rewrite bool_decide_eq_true_2; [done|].
  unfold nrows, joinable, select_rows. simpl.
  by rewrite compress_none by (by apply notna_all_missing).
Qed.

Lemma join_step_no_column df ref_col id_col :
  id_col ∉ columns df →
  join_step key_order keys_compatible df ref_col id_col = ([], Raise (KeyError id_col)).
Proof.
  intros Hid. unfold join_step. destruct (loc df id_col) as [ids|e] eqn:E.
  - by apply loc_Ok_columns in E.
  - by apply loc_Raise in E as [-> _].
Qed.

(** X6.  A mapping whose id column holds no value is skipped: nothing is
    logged, the table is unchanged, and the loop goes on with the next
    mapping. *)
Theorem join_step_no_ids df ref_col id_col ids rest :
  loc df id_col = Ok ids →
  Forall (λ c, c = None) ids →
  join_step key_order keys_compatible df ref_col id_col = ([], Ok df) ∧
  do_joins key_order keys_compatible df ((ref_col, id_col) :: rest)
  = do_joins key_order keys_compatible df rest.
Proof.
  intros Hloc Hall.
  pose proof (join_step_skip df ref_col id_col ids Hloc Hall) as Hstep.
  split; [done|]. by apply do_joins_cons_skip.
Qed.

(** X7.  A mapping whose id column is not a column of the working table
    raises [KeyError] on that name before anything is logged, and the
    remaining mappings are not processed. *)
Theorem join_step_missing_id df ref_col id_col rest :
  id_col ∉ columns df →
  join_step key_order keys_compatible df ref_col id_col = ([], Raise (KeyError id_col)) ∧
  do_joins key_order keys_compatible df ((ref_col, id_col) :: rest)
  = ([], Raise (KeyError id_col)).
Proof.
  intros Hid.
  pose proof (join_step_no_column df ref_col id_col Hid) as Hstep.
  split; [done|]. simpl. by rewrite Hstep.
Qed.

Lemma drop_mask_negb (idx : list Z) mask :
  NoDup idx → length mask = length idx →
  (λ l, bool_decide (l ∉ compress mask idx)) <$> idx = negb <$> mask.
Proof.
  revert mask. induction idx as [|l idx IH]; intros [|b mask] Hn Hlen;
    try done.
  apply NoDup_cons in Hn as [Hl Hn]. injection Hlen as Hlen.
  rewrite !fmap_cons. destruct b; cbn [compress negb].
  - rewrite bool_decide_eq_false_2 by (intros H; apply H; left).
    f_equal. rewrite <- (IH mask Hn Hlen).
    apply list_fmap_ext. intros i l' Hl'. apply list_elem_of_lookup_2 in Hl'.
    apply bool_decide_ext. rewrite not_elem_of_cons.
    split; [by intros [_ ?] | intros ?; split; [congruence | done]].
  - rewrite bool_decide_eq_true_2
      by (intros H%elem_of_compress; by apply Hl).
    f_equal. by apply IH.
Qed.

Lemma compress_negb_Permutation {A} mask (l : list A) :
  length mask = length l →
  compress mask l ++ compress (negb <$> mask) l ≡ₚ l.
Proof.
  revert l. induction mask as [|b mask IH]; intros [|x l] Hlen;
    try done.
  injection Hlen as Hlen. rewrite fmap_cons. destruct b; cbn [compress negb].
  - rewrite <- app_comm_cons. by rewrite IH.
  - rewrite <- Permutation_middle. by rewrite IH.
Qed.

Lemma remainder_select df ids :
  NoDup (index df) → length ids = nrows df →
  remainder df ids = select_rows df (negb <$> notna ids).
Proof.
  intros Hn Hlen. unfold remainder, df_drop, joinable. simpl.
  rewrite drop_mask_negb; [done..|].
  unfold notna. by rewrite length_fmap.
Qed.

(** X8.  When the row labels are unique, dropping the joinable rows by
    label leaves exactly the rows whose id is missing: every row of the
    table is in one and only one of the two partitions. *)
Theorem partitions_split df ids :
  NoDup (index df) → length ids = nrows df →
  remainder df ids = select_rows df (negb <$> notna ids) ∧
  rows (joinable df ids) ++ rows (remainder df ids) ≡ₚ rows df.
Proof.
  intros Hn Hlen. split; [by apply remainder_select|].
  rewrite remainder_select by done. unfold joinable.
  rewrite !rows_select_rows. apply compress_negb_Permutation.
  unfold notna. by rewrite length_fmap, nrows_rows.
Qed.

End StepMore.

Lemma join_step_no_ids_witness :
  loc only_dashes (py "site.id") = Ok [None; None] ∧
  Forall (λ c : @cell nat, c = None) [None; None] ∧
  join_step input_order any_keys only_dashes (py "cycle.site.id") (py "site.id")
  = ([], Ok only_dashes) ∧
  do_joins input_order any_keys only_dashes [(py "cycle.site.id", py "site.id")]
  = do_joins input_order any_keys only_dashes [].
Proof.
  assert (loc only_dashes (py "site.id") = Ok [None; None]) as H1
    by (vm_compute; reflexivity).
  assert (Forall (λ c : @cell nat, c = None) [None; None]) as H2
    by by_compute.
  split; [exact H1|]. split; [exact H2|].
  exact (join_step_no_ids input_order any_keys only_dashes (py "cycle.site.id")
           (py "site.id") _ [] H1 H2).
Defined.

Lemma join_step_missing_id_witness :
  (py "plot.id" ∉ columns cycles_and_sites) ∧
  join_step input_order any_keys cycles_and_sites (py "cycle.plot.id") (py "plot.id")
  = ([], Raise (KeyError (py "plot.id"))) ∧
  do_joins input_order any_keys cycles_and_sites
    [(py "cycle.plot.id", py "plot.id"); (py "cycle.site.id", py "site.id")]
  = ([], Raise (KeyError (py "plot.id"))).
Proof.
  assert (py "plot.id" ∉ columns cycles_and_sites) as H by by_compute.
  split; [exact H|].
  exact (join_step_missing_id input_order any_keys cycles_and_sites
           (py "cycle.plot.id") (py "plot.id")
           [(py "cycle.site.id", py "site.id")] H).
Defined.

Lemma partitions_split_witness :
  NoDup (index cycles_and_sites) ∧
  length [None; None; Some 10; Some 11]%nat = nrows cycles_and_sites ∧
  remainder cycles_and_sites [None; None; Some 10; Some 11]%nat
  = select_rows cycles_and_sites
      (negb <$> notna [None; None; Some 10; Some 11]%nat) ∧
  rows (joinable cycles_and_sites [None; None; Some 10; Some 11]%nat)
    ++ rows (remainder cycles_and_sites [None; None; Some 10; Some 11]%nat)
  ≡ₚ rows cycles_and_sites.
Proof.
  assert (NoDup (index cycles_and_sites)) as H1 by by_compute.
  assert (length [None; None; Some 10; Some 11]%nat
          = nrows cycles_and_sites) as H2 by reflexivity.
  split; [exact H1|]. split; [exact H2|].
  exact (partitions_split cycles_and_sites _ H1 H2).
Defined.

Lemma join_step_ref_dropped_witness :
  well_formed unreferenced_site ∧
  loc unreferenced_site (py "site.id") = Ok [None; Some 10%nat] ∧
  (py "cycle.site.id"
     ∉ columns (dropna_columns
                  (remainder unreferenced_site [None; Some 10%nat]))) ∧
  join_step input_order any_keys unreferenced_site (py "cycle.site.id") (py "site.id")
  = ([InfoJoin (py "site.id") (py "cycle.site.id")],
     Raise (KeyError (py "cycle.site.id"))).
Proof.
  assert (well_formed unreferenced_site) as H0
    by (unfold well_formed; by_compute).
  assert (loc unreferenced_site (py "site.id") = Ok [None; Some 10%nat])
    as H1 by (vm_compute; reflexivity).
  assert (nrows (joinable unreferenced_site [None; Some 10%nat]) ≠ 0%nat)
    as H2 by by_compute.
  assert (∀ c,
            c ∈ columns (dropna_columns
                           (joinable unreferenced_site
                              [None; Some 10%nat])) →
            c ∉ columns (dropna_columns
                           (remainder unreferenced_site
                              [None; Some 10%nat]))) as H3
    by (apply Forall_forall; by_compute).
  assert (py "cycle.site.id"
            ∉ columns (dropna_columns
                         (remainder unreferenced_site [None; Some 10%nat])))
    as H4 by by_compute.
  split; [exact H0|]. split; [exact H1|]. split; [exact H4|].
  exact (join_step_ref_dropped input_order any_keys unreferenced_site
           (py "cycle.site.id") (py "site.id") _ H0 H1 H2 H3 H4).
Defined.

(** ** More on [do_joins] and [merge_rows] *)

Section JoinsMore.

Context {value : Type} `{EqDecision value}.
Variable key_order :
  list (@cell value) → list (@cell value) → list pairing → list pairing.
Variable keys_compatible : list (@cell value) → list (@cell value) → bool.

Implicit Types (df J w : @DataFrame value).
Implicit Types (cells ids : list (@cell value)).

Lemma index_pd_merge left right left_on right_on J :
  pd_merge key_order keys_compatible left right left_on right_on = Ok J → NoDup (index J).
Proof.
  unfold pd_merge. destruct (loc right right_on) as [rk|e]; [|done]. simpl.
  destruct (loc left left_on) as [lk|e]; [|done]. simpl.
  destruct (keys_compatible lk rk); [|done].
  intros [= <-]. simpl. apply NoDup_fmap_2; [apply _ | apply NoDup_seq].
Qed.

Lemma columns_join_step df ref_col id_col log df' :
  join_step key_order keys_compatible df ref_col id_col = (log, Ok df') →
  ∀ c, c ∈ columns df' → c ∈ columns df.
Proof.
  intros [->|(ids & _ & _ & HJ)]%join_step_Ok_cases c; [done|].
  rewrite (columns_pd_merge _ _ _ _ _ _ _ HJ), elem_of_app.
  intros [Hc|Hc]; apply columns_dropna_columns in Hc;
    unfold remainder, df_drop, joinable in Hc;
    by rewrite columns_select_rows in Hc.
Qed.

Lemma index_join_step df ref_col id_col log df' :
  join_step key_order keys_compatible df ref_col id_col = (log, Ok df') →
  NoDup (index df) → NoDup (index df').
Proof.
  intros [->|(ids & _ & _ & HJ)]%join_step_Ok_cases Hn; [done|].
  by apply index_pd_merge in HJ.
Qed.

(** X11.  [do_joins] keeps the table well formed: unique column names,
    as many cells in each column as there are rows, unique row labels.
    It never adds a column name. *)
Theorem do_joins_invariant df mappings log w :
  well_formed df →
  do_joins key_order keys_compatible df mappings = (log, Ok w) →
  well_formed w ∧
  (∀ c, c ∈ columns w → c ∈ columns df) ∧
  (NoDup (index df) → NoDup (index w)).
Proof.
  revert df log. induction mappings as [|[ref_col id_col] rest IH];
    intros df log Hwf; simpl.
  - by intros [= _ <-].
  - destruct (join_step key_order keys_compatible df ref_col id_col) as [log1 [df1|e]] eqn:E;
      [|done].
    destruct (do_joins key_order keys_compatible df1 rest) as [log2 r] eqn:E2.
    intros [= _ ->].
    destruct (IH df1 log2 (well_formed_join_step _ _ _ _ _ _ _ Hwf E) E2)
      as (Hw & Hc & Hi).
    split; [done|]. split.
    + intros c Hcw. eapply columns_join_step; [exact E|]. by apply Hc.
    + intros Hn. apply Hi. by eapply index_join_step.
Qed.

Lemma all_missing_true_elem cells v :
  Some v ∈ cells → all_missing cells = false.
Proof.
  induction cells as [|[v'|] cells IH]; simpl; [by intros ?%elem_of_nil|done|].
  intros [?|H]%elem_of_cons; [done|]. by apply IH.
Qed.

Lemma elem_of_columns_narrowed df mask c :
  c ∈ columns (dropna_columns (select_rows df mask)) ↔
  ∃ cells v, (c, cells) ∈ series df ∧ Some v ∈ compress mask cells.
Proof.
  unfold columns, dropna_columns, select_rows. simpl. split.
  - intros ([n cs] & -> & Hc)%list_elem_of_fmap.
    apply list_elem_of_filter in Hc as [Hm Hc]. simpl in Hm.
    apply list_elem_of_fmap in Hc as ([n' cells] & [= -> ->] & Hc).
    apply all_missing_false_elem in Hm as [v Hv]. simpl. eauto.
  - intros (cells & v & Hc & Hv). apply list_elem_of_fmap.
    exists (c, compress mask cells). split; [done|].
    apply list_elem_of_filter. split.
    + simpl. by apply (all_missing_true_elem _ v).
    + apply list_elem_of_fmap. by exists (c, cells).
Qed.

Lemma join_step_performed df ref_col id_col J :
  join_step key_order keys_compatible df ref_col id_col
  = ([InfoJoin id_col ref_col], Ok J) →
  ∃ ids, loc df id_col = Ok ids ∧
         pd_merge key_order keys_compatible (dropna_columns (remainder df ids))
           (dropna_columns (joinable df ids)) ref_col id_col = Ok J.
Proof.
  unfold join_step. destruct (loc df id_col) as [ids|e] eqn:Hloc; [|done].
  destruct (bool_decide (nrows (joinable df ids) = 0%nat)); [done|].
  destruct (bool_decide (0 < size _)%nat); [done|].
  intros [= HJ]. eauto.
Qed.

(** A column of a performed join holds a value in the table it came from. *)
Lemma columns_performed_join df ref_col id_col J c :
  join_step key_order keys_compatible df ref_col id_col
  = ([InfoJoin id_col ref_col], Ok J) →
  c ∈ columns J →
  ∃ cells v, (c, cells) ∈ series df ∧ Some v ∈ cells.
Proof.
  intros (ids & _ & HJ)%join_step_performed.
  rewrite (columns_pd_merge _ _ _ _ _ _ _ HJ), elem_of_app.
  unfold remainder, df_drop, joinable.
  intros [Hc|Hc]; apply elem_of_columns_narrowed in Hc
    as (cells & v & Hc & Hv); apply elem_of_compress in Hv; eauto.
Qed.

(** X12.  With unique row labels, the columns of a performed join are
    exactly the columns of the table that hold at least one value: the
    all-missing columns are dropped and no other one is. *)
Theorem performed_join_columns df ref_col id_col J c :
  well_formed df → NoDup (index df) →
  join_step key_order keys_compatible df ref_col id_col
  = ([InfoJoin id_col ref_col], Ok J) →
  c ∈ columns J ↔ ∃ cells v, (c, cells) ∈ series df ∧ Some v ∈ cells.
Proof.
  intros Hwf Hn Hstep. split; [by eapply columns_performed_join|].
  intros (cells & v & Hc & Hv).
  destruct (join_step_performed _ _ _ _ Hstep) as (ids & Hloc & HJ).
  assert (length ids = nrows df) as Hlen.
  { apply (well_formed_length df id_col); [done | by apply loc_Ok_elem]. }
  assert (length (notna ids) = length cells) as Hmask.
  { transitivity (nrows df).
    - unfold notna. by rewrite length_fmap.
    - symmetry. by apply (well_formed_length df c). }
  rewrite (columns_pd_merge _ _ _ _ _ _ _ HJ), elem_of_app.
  rewrite (remainder_select df ids Hn Hlen). unfold joinable.
  rewrite !elem_of_columns_narrowed.
  rewrite <- (compress_negb_Permutation _ _ Hmask) in Hv.
  apply elem_of_app in Hv as [Hv|Hv]; [right | left]; eauto.
Qed.

Lemma pd_merge_Raise left right left_on right_on e :
  pd_merge key_order keys_compatible left right left_on right_on = Raise e →
  e = KeyError left_on ∨ e = KeyError right_on ∨
  e = MergeValueError left_on right_on.
Proof.
  unfold pd_merge. destruct (loc right right_on) as [rk|e'] eqn:Er; simpl.
  - destruct (loc left left_on) as [lk|e''] eqn:El; simpl.
    + destruct (keys_compatible lk rk); [done|]. intros [= <-]. auto.
    + intros [= <-]. left. by apply loc_Raise in El as [-> _].
  - intros [= <-]. right. left. by apply loc_Raise in Er as [-> _].
Qed.

Lemma join_step_Raise df ref_col id_col log e :
  join_step key_order keys_compatible df ref_col id_col = (log, Raise e) →
  e = KeyError ref_col ∨ e = KeyError id_col ∨
  e = MergeValueError ref_col id_col.
Proof.
  unfold join_step. destruct (loc df id_col) as [ids|e'] eqn:Hloc.
  - destruct (bool_decide (nrows (joinable df ids) = 0%nat)); [done|].
    destruct (bool_decide (0 < size _)%nat); [done|].
    intros [= _ H]. by apply pd_merge_Raise in H.
  - intros [= _ <-]. right. left. by apply loc_Raise in Hloc as [-> _].
Qed.

Lemma do_joins_Raise df mappings log e :
  do_joins key_order keys_compatible df mappings = (log, Raise e) →
  ∃ ref_col id_col,
    (ref_col, id_col) ∈ mappings ∧
    (e = KeyError ref_col ∨ e = KeyError id_col ∨
     e = MergeValueError ref_col id_col).
Proof.
  revert df log. induction mappings as [|[ref_col id_col] rest IH];
    intros df log; simpl; [done|].
  destruct (join_step key_order keys_compatible df ref_col id_col) as [log1 [df1|e1]] eqn:E.
  - destruct (do_joins key_order keys_compatible df1 rest) as [log2 r] eqn:E2.
    intros [= _ ->]. destruct (IH _ _ E2) as (r' & i' & Hin & He).
    exists r', i'. split; [by right | done].
  - intros [= _ ->]. exists ref_col, id_col. split; [left|].
    by apply join_step_Raise in E.
Qed.

(** X14.  The order of the mappings matters when an id column holds no
    value: on its own the mapping is skipped, but after a performed join
    the column is gone and the mapping raises [KeyError]. *)
Theorem all_missing_id_after_join
    df ref_col id_col ref_col' id_col' ids' J :
  well_formed df →
  join_step key_order keys_compatible df ref_col id_col
  = ([InfoJoin id_col ref_col], Ok J) →
  loc df id_col' = Ok ids' →
  Forall (λ c, c = None) ids' →
  do_joins key_order keys_compatible df [(ref_col, id_col); (ref_col', id_col')]
  = ([InfoJoin id_col ref_col], Raise (KeyError id_col')) ∧
  do_joins key_order keys_compatible df [(ref_col', id_col'); (ref_col, id_col)]
  = ([InfoJoin id_col ref_col], Ok J).
Proof.
  intros [Hnd _] Hstep Hloc Hall. split.
  - assert (id_col' ∉ columns J) as Hgone.
    { intros (cells & v & Hc & Hv)%(columns_performed_join _ _ _ _ _ Hstep).
      apply loc_Ok_elem in Hloc.
      rewrite (NoDup_fst_unique _ _ _ _ Hnd Hc Hloc) in Hv.
      rewrite Forall_forall in Hall. by apply Hall in Hv. }
    pose proof (join_step_no_column key_order keys_compatible J ref_col' id_col' Hgone)
      as Hstep'.
    simpl. by rewrite Hstep, Hstep'.
  - pose proof (join_step_skip key_order keys_compatible df ref_col' id_col' ids' Hloc Hall)
      as Hskip.
    simpl. by rewrite Hskip, Hstep.
Qed.

End JoinsMore.

Section MergeRowsMore.

Context {value : Type} `{EqDecision value}.
Variable key_order :
  list (@cell value) → list (@cell value) → list pairing → list pairing.
Variable keys_compatible : list (@cell value) → list (@cell value) → bool.
Variable uni_alnum : char → bool.
Variable uni_space : char → bool.

Implicit Types (df w out : @DataFrame value).

Lemma getitem_series_sub df names cs :
  getitem_series df names = Ok cs → ∀ c, c ∈ cs → c ∈ series df.
Proof.
  revert cs. induction names as [|name names IH]; intros cs; simpl.
  - intros [= <-] c Hc. by apply elem_of_nil in Hc.
  - destruct (named df name) as [|c0 l] eqn:En; [done|].
    destruct (getitem_series df names) as [tl|e]; [|done]. simpl.
    intros [= <-] c Hc. change (c ∈ (c0 :: l) ++ tl) in Hc.
    apply elem_of_app in Hc as [Hc|Hc]; [|by apply (IH tl)].
    rewrite <- En in Hc. unfold named in Hc.
    by apply list_elem_of_filter in Hc as [_ ?].
Qed.

Lemma restore_and_reorder_shape df w out :
  well_formed df → well_formed w →
  (d ← restore_columns df w; getitem d (columns df)) = Ok out →
  well_formed out.
Proof.
  intros Hdf Hw E.
  destruct (restore_and_reorder df w Hdf Hw) as (out' & E' & Hc & _).
  rewrite E in E'. injection E' as <-.
  split; [fold (columns out); rewrite Hc; by destruct Hdf|].
  rewrite restore_columns_Ok in E. simpl in E. unfold getitem in E.
  destruct (getitem_series _ (columns df)) as [cs|e] eqn:Ecs; [|done].
  simpl in E. injection E as <-. simpl.
  apply Forall_forall. intros c Hcs.
  apply (getitem_series_sub _ _ _ Ecs) in Hcs. simpl in Hcs.
  apply elem_of_app in Hcs as [Hcs|Hcs].
  - apply list_elem_of_fmap in Hcs as (n & -> & _). simpl.
    by rewrite length_replicate.
  - destruct Hw as [_ Hw]. rewrite Forall_forall in Hw. by apply Hw.
Qed.

(** X13.  An exception raised by [merge_rows] on a well-formed table
    comes from the join of one of the discovered mappings: a [KeyError]
    that names its referencing column or its id column, or the
    [ValueError] of [pd.merge] on its two key columns.  Putting the
    columns back and reordering them never raises. *)
Theorem merge_rows_raises_key_error df log e :
  well_formed df →
  merge_rows key_order keys_compatible uni_alnum uni_space df = (log, Raise e) →
  ∃ ref_col id_col,
    (ref_col, id_col) ∈ discover_mappings uni_alnum uni_space (columns df) ∧
    (e = KeyError ref_col ∨ e = KeyError id_col ∨
     e = MergeValueError ref_col id_col).
Proof.
  intros Hwf. unfold merge_rows. rewrite columns_dropna_rows.
  destruct (bool_decide (nrows (dropna_rows df) = 0%nat)); [done|].
  destruct (bool_decide (length _ = 0%nat)); [done|].
  destruct (do_joins key_order keys_compatible (dropna_rows df) _) as [log0 [w|e0]] eqn:Ej.
  - assert (well_formed w) as Hw.
    { eapply well_formed_do_joins; [|exact Ej].
      by apply well_formed_select_rows. }
    destruct (restore_and_reorder df w Hwf Hw) as (out & -> & _). done.
  - intros [= _ ->]. by apply do_joins_Raise in Ej.
Qed.

(** X15.  A table returned by [merge_rows] is well formed: its column
    names are unique and every column has one cell for each row. *)
Theorem merge_rows_well_formed df log out :
  well_formed df →
  merge_rows key_order keys_compatible uni_alnum uni_space df = (log, Ok out) →
  well_formed out.
Proof.
  intros Hwf. unfold merge_rows.
  assert (well_formed (dropna_rows df)) as Hd
    by (by apply well_formed_select_rows).
  destruct (bool_decide (nrows (dropna_rows df) = 0%nat));
    [by intros [= _ <-]|].
  destruct (bool_decide (length _ = 0%nat)); [by intros [= _ <-]|].
  destruct (do_joins key_order keys_compatible (dropna_rows df) _) as [log0 [w|e0]] eqn:Ej;
    [|done].
  intros [= _ E]. apply (restore_and_reorder_shape df w); [done| |done].
  by eapply well_formed_do_joins.
Qed.

End MergeRowsMore.

Lemma well_formed_empty_entity : well_formed empty_entity.
Proof. unfold well_formed. by_compute. Defined.

Lemma well_formed_unreferenced_site : well_formed unreferenced_site.
Proof. unfold well_formed. by_compute. Defined.

Lemma do_joins_invariant_witness :
  well_formed cycles_and_sites ∧
  ∃ log w,
    do_joins input_order any_keys cycles_and_sites [(py "cycle.site.id", py "site.id")]
    = (log, Ok w) ∧
    well_formed w ∧
    (∀ c, c ∈ columns w → c ∈ columns cycles_and_sites) ∧
    (NoDup (index cycles_and_sites) → NoDup (index w)).
Proof.
  split; [exact well_formed_cycles_and_sites|].
  eexists _, _. split; [vm_compute; reflexivity|].
  eapply (do_joins_invariant input_order any_keys cycles_and_sites
            [(py "cycle.site.id", py "site.id")] _ _
            well_formed_cycles_and_sites).
  vm_compute. reflexivity.
Defined.

Lemma performed_join_columns_witness :
  well_formed cycles_and_sites ∧
  NoDup (index cycles_and_sites) ∧
  ∃ J,
    join_step input_order any_keys cycles_and_sites (py "cycle.site.id") (py "site.id")
    = ([InfoJoin (py "site.id") (py "cycle.site.id")], Ok J) ∧
    (py "site.note" ∈ columns J ↔
     ∃ cells v, (py "site.note", cells) ∈ series cycles_and_sites ∧
                Some v ∈ cells).
Proof.
  assert (NoDup (index cycles_and_sites)) as Hn by by_compute.
  split; [exact well_formed_cycles_and_sites|]. split; [exact Hn|].
  eexists. split; [vm_compute; reflexivity|].
  eapply (performed_join_columns input_order any_keys cycles_and_sites
            (py "cycle.site.id") (py "site.id") _ (py "site.note")
            well_formed_cycles_and_sites Hn).
  vm_compute. reflexivity.
Defined.

Lemma all_missing_id_after_join_witness :
  well_formed empty_entity ∧
  loc empty_entity (py "plot.id") = Ok [None; None] ∧
  ∃ J,
    join_step input_order any_keys empty_entity (py "cycle.site.id") (py "site.id")
    = ([InfoJoin (py "site.id") (py "cycle.site.id")], Ok J) ∧
    do_joins input_order any_keys empty_entity
      [(py "cycle.site.id", py "site.id"); (py "cycle.plot.id", py "plot.id")]
    = ([InfoJoin (py "site.id") (py "cycle.site.id")],
       Raise (KeyError (py "plot.id"))) ∧
    do_joins input_order any_keys empty_entity
      [(py "cycle.plot.id", py "plot.id"); (py "cycle.site.id", py "site.id")]
    = ([InfoJoin (py "site.id") (py "cycle.site.id")], Ok J).
Proof.
  assert (loc empty_entity (py "plot.id") = Ok [None; None]) as H1
    by (vm_compute; reflexivity).
  assert (Forall (λ c : @cell nat, c = None) [None; None]) as H2
    by by_compute.
  split; [exact well_formed_empty_entity|]. split; [exact H1|].
  eexists. split; [vm_compute; reflexivity|].
  eapply (all_missing_id_after_join input_order any_keys empty_entity
            (py "cycle.site.id") (py "site.id")
            (py "cycle.plot.id") (py "plot.id") _ _
            well_formed_empty_entity); [|exact H1|exact H2].
  vm_compute. reflexivity.
Defined.

Lemma merge_rows_raises_key_error_witness :
  well_formed unreferenced_site ∧
  ∃ log e ref_col id_col,
    merge_rows input_order any_keys ascii_only ascii_only unreferenced_site
    = (log, Raise e) ∧
    (ref_col, id_col)
      ∈ discover_mappings ascii_only ascii_only (columns unreferenced_site) ∧
    (e = KeyError ref_col ∨ e = KeyError id_col ∨
     e = MergeValueError ref_col id_col).
Proof.
  split; [exact well_formed_unreferenced_site|].
  assert (merge_rows input_order any_keys ascii_only ascii_only unreferenced_site
          = ([InfoJoin (py "site.id") (py "cycle.site.id")],
             Raise (KeyError (py "cycle.site.id")))) as E
    by (vm_compute; reflexivity).
  destruct (merge_rows_raises_key_error input_order any_keys ascii_only ascii_only
              unreferenced_site _ _ well_formed_unreferenced_site E)
    as (r & i & Hin & He).
  eexists _, _, r, i. split; [exact E|]. split; [exact Hin | exact He].
Defined.

Lemma merge_rows_well_formed_witness :
  well_formed cycles_and_sites ∧
  ∃ log out,
    merge_rows input_order any_keys ascii_only ascii_only cycles_and_sites
    = (log, Ok out) ∧
    well_formed out.
Proof.
  split; [exact well_formed_cycles_and_sites|].
  eexists _, _. split; [vm_compute; reflexivity|].
  eapply (merge_rows_well_formed input_order any_keys ascii_only ascii_only
            cycles_and_sites _ _ well_formed_cycles_and_sites).
  vm_compute. reflexivity.
Defined.

(** ** A performed join that returns is a full outer join *)

Section OuterJoin.

Context {value : Type} `{EqDecision value}.
Variable key_order :
  list (@cell value) → list (@cell value) → list pairing → list pairing.
Variable keys_compatible : list (@cell value) → list (@cell value) → bool.

Hypothesis key_order_perm : ∀ lk rk l, key_order lk rk l ≡ₚ l.

Lemma pd_merge_Ok_inv (left right : @DataFrame value) left_on right_on J :
  pd_merge key_order keys_compatible left right left_on right_on = Ok J →
  ∃ lk rk,
    loc left left_on = Ok lk ∧ loc right right_on = Ok rk ∧
    columns J = columns left ++ columns right ∧
    rows J = glue left right <$> key_order lk rk (outer_pairs lk rk).
Proof.
  intros HJ. pose proof (columns_pd_merge _ _ _ _ _ _ _ HJ) as Hc.
  unfold pd_merge in HJ.
  destruct (loc right right_on) as [rk|e]; [|done]. simpl in HJ.
  destruct (loc left left_on) as [lk|e]; [|done]. simpl in HJ.
  destruct (keys_compatible lk rk); [|done].
  injection HJ as <-. exists lk, rk.
  split; [done|]. split; [done|]. split; [done|]. apply rows_merged.
Qed.

(** X9.  When an iteration logs the join and returns a table, that table
    is the full outer join of the two narrowed partitions: its columns
    are the remainder's followed by the joinable's; two rows whose keys
    are equal give exactly one merged row; a row of either side without
    a match appears exactly once, padded with missing cells; there is no
    other row. *)
Proposition join_step_outer_join (df J : @DataFrame value) ref_col id_col :
  well_formed df →
  join_step key_order keys_compatible df ref_col id_col
  = ([InfoJoin id_col ref_col], Ok J) →
  ∃ ids lk rk (pairs : list pairing),
    loc df id_col = Ok ids ∧
    loc (dropna_columns (remainder df ids)) ref_col = Ok lk ∧
    length lk = nrows (dropna_columns (remainder df ids)) ∧
    loc (dropna_columns (joinable df ids)) id_col = Ok rk ∧
    length rk = nrows (dropna_columns (joinable df ids)) ∧
    columns J = columns (dropna_columns (remainder df ids))
                ++ columns (dropna_columns (joinable df ids)) ∧
    rows J = glue (dropna_columns (remainder df ids))
               (dropna_columns (joinable df ids)) <$> pairs ∧
    NoDup pairs ∧
    (∀ i j, (Some i, Some j) ∈ pairs ↔
            ∃ k, lk !! i = Some k ∧ rk !! j = Some k) ∧
    (∀ i, (Some i, None) ∈ pairs ↔ ∃ k, lk !! i = Some k ∧ k ∉ rk) ∧
    (∀ j, (None, Some j) ∈ pairs ↔ ∃ k, rk !! j = Some k ∧ k ∉ lk) ∧
    (None, None) ∉ pairs.
Proof.
  intros Hwf (ids & Hloc & HJ)%join_step_performed.
  set (L := dropna_columns (remainder df ids)) in *.
  set (R := dropna_columns (joinable df ids)) in *.
  assert (well_formed L) as HwfL
    by (by apply well_formed_dropna_columns, well_formed_remainder).
  assert (well_formed R) as HwfR
    by (by apply well_formed_dropna_columns, well_formed_joinable).
  destruct (pd_merge_Ok_inv _ _ _ _ _ HJ) as (lk & rk & Hlk & Hrk & Hc & Hr).
  pose proof (outer_pairs_spec lk rk) as (Hnd & Hmm & Hl & Hro & Hnn).
  pose proof (key_order_perm lk rk (outer_pairs lk rk)) as Hperm.
  exists ids, lk, rk, (key_order lk rk (outer_pairs lk rk)).
  split; [done|]. split; [done|].
  split; [apply (well_formed_length L ref_col); [done | by apply loc_Ok_elem]|].
  split; [done|].
  split; [apply (well_formed_length R id_col); [done | by apply loc_Ok_elem]|].
  split; [done|]. split; [done|].
  split; [by rewrite Hperm|].
  split; [intros i j; by rewrite Hperm|].
  split; [intros i; by rewrite Hperm|].
  split; [intros j; by rewrite Hperm|].
  by rewrite Hperm.
Qed.

End OuterJoin.

Lemma join_step_outer_join_witness :
  well_formed cycles_and_sites ∧
  ∃ J (pairs : list pairing),
    join_step input_order any_keys cycles_and_sites
      (py "cycle.site.id") (py "site.id")
    = ([InfoJoin (py "site.id") (py "cycle.site.id")], Ok J) ∧
    rows J
    = glue (dropna_columns
              (remainder cycles_and_sites
                 [None; None; Some 10; Some 11]%nat))
           (dropna_columns
              (joinable cycles_and_sites
                 [None; None; Some 10; Some 11]%nat)) <$> pairs ∧
    NoDup pairs ∧
    (Some 0, Some 0)%nat ∈ pairs ∧ (Some 1, Some 0)%nat ∈ pairs ∧
    (None, Some 1%nat) ∈ pairs.
Proof.
  split; [exact well_formed_cycles_and_sites|].
  evar (J0 : @DataFrame nat).
  assert (join_step input_order any_keys cycles_and_sites
            (py "cycle.site.id") (py "site.id")
          = ([InfoJoin (py "site.id") (py "cycle.site.id")], Ok J0)) as E
    by (subst J0; vm_compute; reflexivity).
  destruct (join_step_outer_join input_order any_keys
              (λ _ _ l, reflexivity l) cycles_and_sites J0
              (py "cycle.site.id") (py "site.id")
              well_formed_cycles_and_sites E)
    as (ids & lk & rk & pairs & Hids & Hlk & _ & Hrk & _ & _ & Hrows & Hnd
        & Hmm & _ & Hr & _).
  vm_compute in Hids. injection Hids as <-.
  vm_compute in Hlk, Hrk. injection Hlk as <-. injection Hrk as <-.
  exists J0, pairs. split; [exact E|]. split; [exact Hrows|].
  split; [exact Hnd|].
  split; [apply Hmm; by exists (Some 10%nat)|].
  split; [apply Hmm; by exists (Some 10%nat)|].
  apply Hr. exists (Some 11%nat). split; [done|]. by_compute.
Defined.

Lemma discover_mappings_input_order_witness :
  [py "b.id"; py "x.b.id"; py "a.id"; py "y.a.id"]
  = [py "b.id"] ++ py "x.b.id" :: [py "a.id"; py "y.a.id"] ∧
  0 < second_last_dot (py "x.b.id") ∧
  suffix_of (py "x.b.id")
    ∈ collect_index_cols ascii_only ascii_only
        [py "b.id"; py "x.b.id"; py "a.id"; py "y.a.id"] ∧
  head (discover_mappings ascii_only ascii_only
          [py "b.id"; py "x.b.id"; py "a.id"; py "y.a.id"])
  = Some (py "x.b.id", suffix_of (py "x.b.id")) ∧
  discover_mappings ascii_only ascii_only
    [py "b.id"; py "x.b.id"; py "a.id"; py "y.a.id"]
  = [(py "x.b.id", py "b.id"); (py "y.a.id", py "a.id")].
Proof.
  assert (0 < second_last_dot (py "x.b.id")) as H1 by by_compute.
  assert (suffix_of (py "x.b.id")
            ∈ collect_index_cols ascii_only ascii_only
                [py "b.id"; py "x.b.id"; py "a.id"; py "y.a.id"]) as H2
    by by_compute.
  assert (∀ c, c ∈ [py "b.id"] →
               ¬ (0 < second_last_dot c ∧
                  suffix_of c
                    ∈ collect_index_cols ascii_only ascii_only
                        [py "b.id"; py "x.b.id"; py "a.id"; py "y.a.id"]))
    as H3 by (apply Forall_forall; by_compute).
  split; [reflexivity|]. split; [exact H1|]. split; [exact H2|].
  split.
  - exact (proj1 (proj2 (proj2 (discover_mappings_input_order ascii_only
                                  ascii_only
                                  [py "b.id"; py "x.b.id"; py "a.id";
                                   py "y.a.id"])))
             [py "b.id"] (py "x.b.id") [py "a.id"; py "y.a.id"]
             eq_refl H1 H2 H3).
  - vm_compute. reflexivity.
Defined.
